(** * The PPO training driver of [playground/train.py]

    A shallow embedding of the training loop of [main] (the part of
    [src/playground/train.py] that follows the construction of the
    environments, the model and the rollout storage), together with the
    properties of the loop stated in the specification.

    Modelling conventions.
    - Python [float]s (rewards, learning rates, [num_frames], [save_every],
      clock readings) are exact rationals [Q]: rounding is not modelled.
      [float("-inf")] is a separate constructor.
    - Python [int]s are [Z]; the two counts [num_processes] and [num_steps],
      which size the reward window, the bad-mask array and the two [range]
      loops, are [nat].
    - The collaborators imported by the driver (environment, policy, PPO
      agent, storage, [torch.save], the clock, the decay helpers) are fields
      of a record of functions that thread an abstract [World].
    - The driver itself runs in a state/trace/exception monad: the trace is
      the sequence of calls made on the collaborators, an exception aborts
      the run as an uncaught Python exception does. *)

From Stdlib Require Import Ascii String QArith Qround Lia Lqa Sorted.
From stdpp Require Import gmap strings list pretty.

Set Default Proof Using "Type".

(** ** Python values used by the driver *)

Module Py.

Inductive exn : Set :=
| ZeroDivisionError
| IndexError
| TypeError
| KeyError
| OSError.

Inductive outcome (A : Type) : Type :=
| Ok (a : A)
| Raise (e : exn).
Global Arguments Ok {A} a.
Global Arguments Raise {A} e.

Global Instance outcome_ret : MRet outcome := @Ok.
Global Instance outcome_bind : MBind outcome := fun A B f m =>
  match m with
  | Ok a => f a
  | Raise e => Raise e
  end.

(** [int(x)] on a float: truncation toward zero. *)
Definition int_of_float (x : Q) : Z :=
  if Qle_bool 0 x then Qfloor x else Qceiling x.

(** [a // b] on ints: floor division, [ZeroDivisionError] when [b = 0]. *)
Definition floordiv (a b : Z) : outcome Z :=
  if (b =? 0)%Z then Raise ZeroDivisionError else Ok (a / b)%Z.

(** [a / b] on floats. *)
Definition truediv (a b : Q) : outcome Q :=
  if Qeq_bool b 0 then Raise ZeroDivisionError else Ok (a / b)%Q.

(** [float("-inf")] and the finite floats. *)
Inductive efloat : Type :=
| NegInf
| Fin (x : Q).

(** [x > m] for a finite [x]. *)
Definition gt_efloat (x : Q) (m : efloat) : bool :=
  match m with
  | NegInf => true
  | Fin y => negb (Qle_bool x y)
  end.

(** [collections.deque(maxlen=n).append(x)]: push on the right, drop from
    the left what exceeds [n]. *)
Definition deque_append (maxlen : nat) (x : Q) (d : list Q) : list Q :=
  let d' := d ++ [x] in drop (length d' - maxlen) d'.

Definition Qsum_list (l : list Q) : Q := foldr Qplus 0%Q l.

(** [np.mean] of a non-empty sequence. *)
Definition np_mean (l : list Q) : Q :=
  (Qsum_list l / inject_Z (Z.of_nat (length l)))%Q.

(** [os.path.join(a, b)] for two components. *)
Definition os_path_join (a b : string) : string :=
  match b with
  | String "/"%char _ => b
  | _ =>
      match a with
      | EmptyString => b
      | _ =>
          if String.eqb (String.substring (String.length a - 1) 1 a) "/"%string
          then a +:+ b
          else a +:+ "/" +:+ b
      end
  end.

(** The values found in an [info] dict: the truncation flag written by
    [TimeLimitMask], the episode summary written by [Monitor] (itself a
    dict of floats), anything else as a float. *)
Inductive info_val : Type :=
| VBool (b : bool)
| VFloat (x : Q)
| VDict (d : gmap string Q).

End Py.
Import Py.

Abbreviation info := (gmap string info_val).

(** ["k" in info.keys()] *)
Definition has_key (k : string) (i : info) : bool :=
  bool_decide (is_Some (i !! k)).

(** [info["episode"]["r"]] *)
Definition episode_r (i : info) : outcome Q :=
  match i !! "episode" with
  | None => Raise KeyError
  | Some (VDict d) =>
      match d !! "r" with
      | Some r => Ok r
      | None => Raise KeyError
      end
  | Some _ => Raise TypeError
  end.

(** [masks = [[0.0] if done_ else [1.0] for done_ in done]] *)
Definition masks_of_done (done : list bool) : list Q :=
  map (fun done_ : bool => if done_ then 0%Q else 1%Q) done.

(** [bad_masks[p_index] = 0.0] on a numpy array: an index past the end
    raises. *)
Definition set_zero (p_index : nat) (bad_masks : list Q) : outcome (list Q) :=
  if decide (p_index < length bad_masks)%nat
  then Ok (<[p_index := 0%Q]> bad_masks)
  else Raise IndexError.

(** The body of [for p_index, info in enumerate(infos)] (lines 219-226),
    started at index [p_index], on the bad-mask array and the reward
    window. *)
Fixpoint scan_infos (maxlen p_index : nat) (infos : list info)
    (bad_masks episode_rewards : list Q) : outcome (list Q * list Q) :=
  match infos with
  | [] => Ok (bad_masks, episode_rewards)
  | i :: rest =>
      bad_masks' ← (if has_key "bad_transition" i
                    then set_zero p_index bad_masks
                    else Ok bad_masks);
      episode_rewards' ← (if has_key "episode" i
                          then r ← episode_r i;
                               Ok (deque_append maxlen r episode_rewards)
                          else Ok episode_rewards);
      scan_infos maxlen (S p_index) rest bad_masks' episode_rewards'
  end.

(** [np.ones((num_processes, 1))] *)
Definition np_ones (n : nat) : list Q := replicate n 1%Q.

(** The three kinds of checkpoint file and their names,
    ["{}_latest.pt"], ["{}_best.pt"] and ["{}_{:d}.pt"]. *)
Inductive tag : Set :=
| Latest
| Best
| Snapshot (frames : Z).

Definition tag_string (t : tag) : string :=
  match t with
  | Latest => "latest"
  | Best => "best"
  | Snapshot n => pretty n
  end.

Definition model_name (env_name : string) (t : tag) : string :=
  env_name +:+ "_" +:+ tag_string t +:+ ".pt".

Definition drive_dir : string := "/content/gdrive/My Drive/darwin2".

(** ** The driver monad: state, trace of collaborator calls, exceptions *)

Definition M (St Ev A : Type) : Type := St → list Ev * outcome (A * St).

Section Monad.
Context {St Ev : Type}.

Global Instance M_ret : MRet (M St Ev) := fun A a s => ([], Ok (a, s)).

Global Instance M_bind : MBind (M St Ev) := fun A B f m s =>
  match m s with
  | (t1, Ok (a, s1)) =>
      match f a s1 with
      | (t2, r) => (t1 ++ t2, r)
      end
  | (t1, Raise e) => (t1, Raise e)
  end.

Definition emit (e : Ev) : M St Ev unit := fun s => ([e], Ok (tt, s)).
Definition gets {A} (f : St → A) : M St Ev A := fun s => ([], Ok (f s, s)).
Definition modify (f : St → St) : M St Ev unit := fun s => ([], Ok (tt, f s)).
Definition lift {A} (o : outcome A) : M St Ev A := fun s =>
  match o with
  | Ok a => ([], Ok (a, s))
  | Raise e => ([], Raise e)
  end.

(** [for i in range(lo, lo + n): body(i)] *)
Fixpoint for_from (lo n : nat) (body : nat → M St Ev unit) : M St Ev unit :=
  match n with
  | O => mret tt
  | S n' => body lo;; for_from (S lo) n' body
  end.

(** [for i in range(n): body(i)] *)
Definition for_range (n : nat) (body : nat → M St Ev unit) : M St Ev unit :=
  for_from 0 n body.
End Monad.

(** ** The driver *)

(** The configuration read by the loop ([args]). *)
Record args : Type := Args {
  env_name : string;
  save_dir : string;
  num_frames : Q;
  save_every : Q;
  cuda : bool;
  num_processes : nat;
  num_steps : nat;
  use_gae : bool;
  lr_decay_type : string;
  gamma : Q;
  gae_lambda : Q;
  lr : Q
}.

(** The record handed to [logger.log_epoch]. *)
Record log_record : Type := LogRecord {
  log_iter : Z;
  log_total_num_steps : Z;
  log_fps : Z;
  log_entropy : Q;
  log_value_loss : Q;
  log_action_loss : Q;
  log_stats_rew : list Q
}.

Section Driver.
Context {World Obs HState Action LogProb Model Storage : Type}.

(** The eight arguments of [rollouts.insert]. *)
Record insert_args : Type := InsertArgs {
  ia_current_obs : Obs;
  ia_states : HState;
  ia_action : Action;
  ia_action_log_prob : LogProb;
  ia_value : list Q;
  ia_reward : list Q;
  ia_masks : list Q;
  ia_bad_masks : list Q
}.

(** The collaborators.  Indices of the storage reads are Python indices
    ([-1] is the last slot). *)
Record collab : Type := Collab {
  act : World → Model → Obs → HState → list Q →
        World * (list Q * Action * LogProb * HState);
  get_value : World → Model → Obs → HState → list Q → World * list Q;
  envs_step : World → Action → World * (Obs * list Q * list bool * list info);
  agent_update : World → Model → Storage → World * (Model * (Q * Q * Q));
  set_optimizer_lr : Model → Q → Model;
  linear_decay : Z → Z → Q → Q → Q;
  exponential_decay : Z → Q → Q → Q → Q;
  cpu_copy : Model → Model;
  torch_save : World → Model → string → option World;
  time_time : World → World * Q;
  rollouts_observations : Storage → Z → Obs;
  rollouts_states : Storage → Z → HState;
  rollouts_masks : Storage → Z → list Q;
  rollouts_insert : Storage → insert_args → Storage;
  rollouts_compute_returns : Storage → list Q → bool → Q → Q → Storage;
  rollouts_after_update : Storage → Storage
}.

(** The calls the driver makes, in the order it makes them. *)
Inductive event : Type :=
| EvSetLr (scheduled_lr : Q)
| EvAct (step : nat)
| EvEnvStep (cpu_actions : Action) (done : list bool) (infos : list info)
| EvInsert (a : insert_args)
| EvGetValue (obs : Obs) (states : HState) (masks : list Q)
| EvComputeReturns (next_value : list Q) (use_gae : bool) (gamma gae_lambda : Q)
| EvUpdate (value_loss action_loss dist_entropy : Q)
| EvAfterUpdate
| EvSave (dir model_name : string) (written : bool)
| EvLog (r : log_record).

(** The variables of [main] that the loop reads and writes. *)
Record driver : Type := Driver {
  world : World;
  actor_critic : Model;
  rollouts : Storage;
  current_obs : Obs;
  episode_rewards : list Q;
  next_checkpoint : Q;
  max_ep_reward : efloat
}.

Definition set_world (w : World) (s : driver) : driver :=
  Driver w (actor_critic s) (rollouts s) (current_obs s)
         (episode_rewards s) (next_checkpoint s) (max_ep_reward s).
Definition set_actor_critic (m : Model) (s : driver) : driver :=
  Driver (world s) m (rollouts s) (current_obs s)
         (episode_rewards s) (next_checkpoint s) (max_ep_reward s).
Definition set_rollouts (r : Storage) (s : driver) : driver :=
  Driver (world s) (actor_critic s) r (current_obs s)
         (episode_rewards s) (next_checkpoint s) (max_ep_reward s).
Definition set_current_obs (o : Obs) (s : driver) : driver :=
  Driver (world s) (actor_critic s) (rollouts s) o
         (episode_rewards s) (next_checkpoint s) (max_ep_reward s).
Definition set_episode_rewards (l : list Q) (s : driver) : driver :=
  Driver (world s) (actor_critic s) (rollouts s) (current_obs s)
         l (next_checkpoint s) (max_ep_reward s).
Definition set_next_checkpoint (x : Q) (s : driver) : driver :=
  Driver (world s) (actor_critic s) (rollouts s) (current_obs s)
         (episode_rewards s) x (max_ep_reward s).
Definition set_max_ep_reward (x : efloat) (s : driver) : driver :=
  Driver (world s) (actor_critic s) (rollouts s) (current_obs s)
         (episode_rewards s) (next_checkpoint s) x.

Abbreviation DM := (M driver event).

Variable c : collab.
Variable a : args.

(** A call on a collaborator that may change the world. *)
Definition call {A} (f : World → World * A) : DM A :=
  w ← gets world;
  let '(w', r) := f w in
  modify (set_world w');;
  mret r.

(** Lines 196-203. *)
Definition scheduled_lr (num_updates : Z) (j : nat) : Q :=
  if String.eqb (lr_decay_type a) "linear"
  then linear_decay c (Z.of_nat j) num_updates (lr a) 0
  else if String.eqb (lr_decay_type a) "exponential"
  then exponential_decay c (Z.of_nat j) (99 # 100) (lr a) (3 # 100000)
  else lr a.

Definition push_lr (x : Q) : DM unit :=
  emit (EvSetLr x);;
  modify (fun s => set_actor_critic (set_optimizer_lr c (actor_critic s) x) s).

(** Lines 206-241: one environment step. *)
Definition collect_step (step : nat) : DM unit :=
  emit (EvAct step);;
  s ← gets id;
  '(value, action, action_log_prob, states) ←
    call (fun w => act c w (actor_critic s)
                     (rollouts_observations c (rollouts s) (Z.of_nat step))
                     (rollouts_states c (rollouts s) (Z.of_nat step))
                     (rollouts_masks c (rollouts s) (Z.of_nat step)));
  '(obs, reward, done, infos) ← call (fun w => envs_step c w action);
  emit (EvEnvStep action done infos);;
  window ← gets episode_rewards;
  '(bad_masks, window') ←
    lift (scan_infos (num_processes a) 0 infos
                     (np_ones (num_processes a)) window);
  modify (set_episode_rewards window');;
  let masks := masks_of_done done in
  modify (set_current_obs obs);;
  let ia := InsertArgs obs states action action_log_prob value reward
                       masks bad_masks in
  emit (EvInsert ia);;
  modify (fun s => set_rollouts (rollouts_insert c (rollouts s) ia) s).

(** Lines 205-252: collection, returns, PPO update, [after_update]. *)
Definition collect_and_update : DM (Q * Q * Q) :=
  for_range (num_steps a) collect_step;;
  s ← gets id;
  let obs := rollouts_observations c (rollouts s) (-1) in
  let states := rollouts_states c (rollouts s) (-1) in
  let masks := rollouts_masks c (rollouts s) (-1) in
  emit (EvGetValue obs states masks);;
  next_value ←
    call (fun w => get_value c w (actor_critic s) obs states masks);
  emit (EvComputeReturns next_value (use_gae a) (gamma a) (gae_lambda a));;
  modify (fun s => set_rollouts
            (rollouts_compute_returns c (rollouts s) next_value
               (use_gae a) (gamma a) (gae_lambda a)) s);;
  s ← gets id;
  '(m, (value_loss, action_loss, dist_entropy)) ←
    call (fun w => agent_update c w (actor_critic s) (rollouts s));
  emit (EvUpdate value_loss action_loss dist_entropy);;
  modify (set_actor_critic m);;
  emit EvAfterUpdate;;
  modify (fun s => set_rollouts (rollouts_after_update c (rollouts s)) s);;
  mret (value_loss, action_loss, dist_entropy).

(** [torch.save(save_model, os.path.join(dir, model_name))]; the event
    tells whether the file was written. *)
Definition save (save_model : Model) (dir name : string) : DM unit :=
  w ← gets world;
  match torch_save c w save_model (os_path_join dir name) with
  | Some w' => emit (EvSave dir name true);; modify (set_world w')
  | None => emit (EvSave dir name false);; lift (Raise OSError)
  end.

Definition frame_count (j : nat) : Z :=
  ((Z.of_nat j + 1) * Z.of_nat (num_steps a) * Z.of_nat (num_processes a))%Z.

(** The test of line 255-257. *)
Definition snapshot_due (num_updates : Z) (j : nat) (next_checkpoint : Q) : bool :=
  (Qle_bool next_checkpoint (inject_Z (frame_count j))
   || (Z.of_nat j =? num_updates - 1)%Z)
  && negb (String.eqb (save_dir a) "").

(** The test of line 273. *)
Definition improved (window : list Q) (best : efloat) : bool :=
  (1 <? length window)%nat && gt_efloat (np_mean window) best.

(** Lines 254-280.  The sum of line 259 is exact here and rounded in
    Python: what is stated below of [next_checkpoint] is stated of its
    value at the start of an iteration, never of a sum of several
    [save_every]. *)
Definition checkpoint (num_updates : Z) (j : nat) : DM unit :=
  nc ← gets next_checkpoint;
  name ← (if snapshot_due num_updates j nc
          then modify (set_next_checkpoint (nc + save_every a)%Q);;
               mret (model_name (env_name a) (Snapshot (int_of_float nc)))
          else mret (model_name (env_name a) Latest));
  m ← gets actor_critic;
  let save_model := if cuda a then cpu_copy c m else m in
  save save_model drive_dir name;;
  save save_model (save_dir a) name;;
  window ← gets episode_rewards;
  best ← gets max_ep_reward;
  if improved window best
  then modify (set_max_ep_reward (Fin (np_mean window)));;
       save save_model drive_dir (model_name (env_name a) Best);;
       save save_model (save_dir a) (model_name (env_name a) Best)
  else mret tt.

(** Lines 282-295. *)
Definition log_epoch (start : Q) (j : nat) (losses : Q * Q * Q) : DM unit :=
  window ← gets episode_rewards;
  if (1 <? length window)%nat
  then end_ ← call (time_time c);
       let total_num_steps :=
         ((Z.of_nat j + 1) * Z.of_nat (num_processes a)
          * Z.of_nat (num_steps a))%Z in
       fps ← lift (truediv (inject_Z total_num_steps) (end_ - start)%Q);
       emit (EvLog (LogRecord (Z.of_nat j + 1) total_num_steps
                      (int_of_float fps) (losses.2) (losses.1.1)
                      (losses.1.2) window))
  else mret tt.

(** The body of [for j in range(num_updates)]. *)
Definition iteration (num_updates : Z) (start : Q) (j : nat) : DM unit :=
  push_lr (scheduled_lr num_updates j);;
  losses ← collect_and_update;
  checkpoint num_updates j;;
  log_epoch start j losses.

(** Lines 183-295.  Of the logger the model keeps the calls of
    [log_epoch]: its construction (lines 190-192), like the set-up of
    lines 104-181, is no call of the trace. *)
Definition train : DM unit :=
  modify (set_episode_rewards []);;
  n ← lift (floordiv (int_of_float (num_frames a)) (Z.of_nat (num_steps a)));
  num_updates ← lift (floordiv n (Z.of_nat (num_processes a)));
  start ← call (time_time c);
  modify (set_next_checkpoint (save_every a));;
  modify (set_max_ep_reward NegInf);;
  for_range (Z.to_nat num_updates) (iteration num_updates start).

(** [main] from line 183 on, in the world, with the model, the storage
    and the first observation that lines 104-181 have set up. *)
Definition main (w : World) (m : Model) (r : Storage) (o : Obs)
    : list event * outcome (unit * driver) :=
  train (Driver w m r o [] (save_every a) NegInf).

End Driver.

(** ** The rollout storage

    [algorithms/storage.py] is not part of the sources at hand: the storage
    is modelled from section 4.1 of the specification. *)

Module RolloutStorage.
Section Storage.
Context {Obs HState Action LogProb : Type}.

(** Element-wise operations on one slot (a batch of [N] floats). *)
Definition vadd : list Q → list Q → list Q := zip_with Qplus.
Definition vsub : list Q → list Q → list Q := zip_with Qminus.
Definition vmul : list Q → list Q → list Q := zip_with Qmult.
Definition vscale (x : Q) : list Q → list Q := map (Qmult x).

(** Modelled from the spec: the data model of section 3, the sequences of
  length [T+1] and [T] of the missing class [RolloutStorage], with
  [step] the next free slot. *)
Record t : Type := Make {
observations : list Obs;
recurrent_states : list HState;
actions : list Action;
action_log_probs : list LogProb;
values : list (list Q);
rewards : list (list Q);
masks : list (list Q);
bad_masks : list (list Q);
returns : list (list Q);
step : nat
}.

(** The horizon [T]. *)
Definition horizon (s : t) : nat := length (rewards s).

(** Modelled from the spec: the missing [RolloutStorage.insert], which
  writes one timestep at the next free slot of the length-[T] sequences
  and one frame at the slot after it of the length-[T+1] sequences.
  Past the end, where the spec leaves the call undefined, the update is
  the list update out of range, which changes nothing. *)
Definition insert (s : t) (current_obs : Obs) (state : HState)
  (action : Action) (action_log_prob : LogProb)
  (value reward mask bad_mask : list Q) : t :=
let k := step s in
Make (<[S k := current_obs]> (observations s))
     (<[S k := state]> (recurrent_states s))
     (<[k := action]> (actions s))
     (<[k := action_log_prob]> (action_log_probs s))
     (<[k := value]> (values s))
     (<[k := reward]> (rewards s))
     (<[S k := mask]> (masks s))
     (<[S k := bad_mask]> (bad_masks s))
     (returns s)
     (S k).

(** One step [t] of the backward recursion without GAE:
  [returns[t] = returns[t+1]*gamma*mask[t+1] + reward[t]]. *)
Definition nstep_at (gamma : Q) (s : t) (rets : list (list Q)) (i : nat)
  : list (list Q) :=
<[i := vadd (vmul (vscale gamma (rets !!! S i)) (masks s !!! S i))
            (rewards s !!! i)]> rets.

(** One step [t] of the backward recursion with GAE, on the pair of the
  running [gae] and the returns:
  [delta = reward[t] + gamma*values[t+1]*mask[t+1] - values[t]],
  [gae = delta + gamma*lambda*mask[t+1]*gae],
  [returns[t] = gae + values[t]]. *)
Definition gae_at (gamma lam : Q) (s : t) (vals : list (list Q))
  (acc : list Q * list (list Q)) (i : nat) : list Q * list (list Q) :=
let delta :=
  vsub (vadd (rewards s !!! i)
             (vmul (vscale gamma (vals !!! S i)) (masks s !!! S i)))
       (vals !!! i) in
let gae :=
  vadd delta (vmul (vscale (gamma * lam) (masks s !!! S i)) acc.1) in
(gae, <[i := vadd gae (vals !!! i)]> acc.2).

(** [for t in reversed(range(T))] *)
Definition backwards (T : nat) : list nat := rev (seq 0 T).

(** Modelled from the spec: the missing
  [RolloutStorage.compute_returns(bootstrap_value, use_gae, gamma, lambda)]. *)
Definition compute_returns (s : t) (bootstrap_value : list Q)
  (use_gae : bool) (gamma lam : Q) : t :=
let T := horizon s in
let rets :=
  if use_gae
  then
    let vals := take T (values s) ++ [bootstrap_value] in
    (foldl (gae_at gamma lam s vals)
           (map (fun _ => 0%Q) bootstrap_value, returns s)
           (backwards T)).2
  else
    foldl (nstep_at gamma s) (<[T := bootstrap_value]> (returns s))
          (backwards T) in
Make (observations s) (recurrent_states s) (actions s)
     (action_log_probs s) (values s) (rewards s) (masks s) (bad_masks s)
     rets (step s).

(** Slot [T] put in slot [0]. *)
Definition carry {A} (l : list A) : list A :=
match last l with
| Some x => <[0%nat := x]> l
| None => l
end.

(** Modelled from the spec: the missing [RolloutStorage.after_update],
  which copies slot [T] of the observations, recurrent states and masks
  into slot [0] and makes the other slots free again. *)
Definition after_update (s : t) : t :=
Make (carry (observations s)) (carry (recurrent_states s)) (actions s)
     (action_log_probs s) (values s) (rewards s) (carry (masks s))
     (bad_masks s) (returns s) 0.

(** [l[i]] with a Python index, [d] standing for what an index out of
  range would read. *)
Definition py_index {A} (d : A) (l : list A) (i : Z) : A :=
if (0 <=? i)%Z then nth (Z.to_nat i) l d
else nth (Z.to_nat (Z.of_nat (length l) + i)) l d.

(** [x ** n] *)
Fixpoint pow (x : Q) (n : nat) : Q :=
match n with
| O => 1%Q
| S n' => (x * pow x n')%Q
end.

(** [sum_{k=0}^{n-1} f k] *)
Fixpoint sum_upto (f : nat → Q) (n : nat) : Q :=
match n with
| O => 0%Q
| S n' => (sum_upto f n' + f n')%Q
end.

(** The exact N-step discounted return of the specification at step [i]
  of a segment of [T] steps:
  [sum_{k=0}^{T-1-i} gamma^k * reward[i+k] + gamma^(T-i) * bootstrap]. *)
Definition discounted_return (gamma : Q) (reward : nat → Q) (bootstrap : Q)
  (T i : nat) : Q :=
(sum_upto (fun k => pow gamma k * reward (i + k)%nat) (T - i)
 + pow gamma (T - i) * bootstrap)%Q.

End Storage.
Global Arguments t : clear implicits.
End RolloutStorage.

(** * Properties *)

(** ** Running the monad *)

Section MonadFacts.
Context {St Ev : Type}.
Implicit Types (s : St) (tr : list Ev).

Lemma bind_run {A B} (m : M St Ev A) (f : A → M St Ev B) s :
  (m ≫= f) s =
  match m s with
  | (t1, Ok (x, s1)) => (t1 ++ (f x s1).1, (f x s1).2)
  | (t1, Raise e) => (t1, Raise e)
  end.
Proof.
  unfold mbind, M_bind. destruct (m s) as [t1 [[x s1]|e]]; [|done].
  by destruct (f x s1).
Qed.

Lemma bind_ok {A B} (m : M St Ev A) (f : A → M St Ev B) s tr y s' :
  (m ≫= f) s = (tr, Ok (y, s')) →
  ∃ t1 x s1 t2,
    m s = (t1, Ok (x, s1)) ∧ f x s1 = (t2, Ok (y, s')) ∧ tr = t1 ++ t2.
Proof.
  rewrite bind_run. destruct (m s) as [t1 [[x s1]|e]]; [|done].
  destruct (f x s1) as [t2 r] eqn:Hf. simpl. intros [= <- ->].
  by exists t1, x, s1, t2.
Qed.

Lemma bind_raise {A B} (m : M St Ev A) (f : A → M St Ev B) s tr e :
  (m ≫= f) s = (tr, Raise e) →
  m s = (tr, Raise e) ∨
  ∃ t1 x s1 t2,
    m s = (t1, Ok (x, s1)) ∧ f x s1 = (t2, Raise e) ∧ tr = t1 ++ t2.
Proof.
  rewrite bind_run. destruct (m s) as [t1 [[x s1]|e']].
  - destruct (f x s1) as [t2 r] eqn:Hf. simpl. intros [= <- ->].
    right. by exists t1, x, s1, t2.
  - intros [= <- <-]. by left.
Qed.

(** How a computation ended: normally, or with an exception. *)
Definition status {A} (o : outcome A) : option exn :=
  match o with
  | Ok _ => None
  | Raise e => Some e
  end.

(** A property of a trace and of the way it ended that holds of the empty
    trace and is kept when a part that ended normally is followed by
    another part holds of a sequence and of a loop as soon as it holds of
    each part. *)
Section Closed.
Variable Φ : list Ev → option exn → Prop.
Hypothesis Φ_nil : ∀ r, Φ [] r.
Hypothesis Φ_app : ∀ t1 t2 r, Φ t1 None → Φ t2 r → Φ (t1 ++ t2) r.

Definition emits {A} (m : M St Ev A) : Prop :=
  ∀ s, Φ (m s).1 (status (m s).2).

Lemma emits_bind {A B} (m : M St Ev A) (f : A → M St Ev B) :
  emits m → (∀ x, emits (f x)) → emits (m ≫= f).
Proof using Φ_app.
  intros Hm Hf s. rewrite bind_run. specialize (Hm s).
  destruct (m s) as [t1 [[x s1]|e]]; simpl in *; [|done].
  apply Φ_app; [done|apply Hf].
Qed.

Lemma emits_ret {A} (x : A) : emits (mret x : M St Ev A).
Proof using Φ_nil. intros s. apply Φ_nil. Qed.

Lemma emits_gets {A} (f : St → A) : emits (gets f : M St Ev A).
Proof using Φ_nil. intros s. apply Φ_nil. Qed.

Lemma emits_modify (f : St → St) : emits (modify f : M St Ev unit).
Proof using Φ_nil. intros s. apply Φ_nil. Qed.

Lemma emits_lift {A} (o : outcome A) : emits (lift o : M St Ev A).
Proof using Φ_nil. intros s. unfold lift. destruct o; apply Φ_nil. Qed.

Lemma emits_emit (e : Ev) : Φ [e] None → emits (emit e : M St Ev unit).
Proof. intros He s. exact He. Qed.

Lemma emits_for_from (body : nat → M St Ev unit) lo n :
  (∀ i, emits (body i)) → emits (for_from lo n body).
Proof using Φ_nil Φ_app.
  intros Hb. revert lo. induction n as [|n IH]; intros lo; simpl.
  - apply emits_ret.
  - apply emits_bind; [apply Hb|]. intros _. apply IH.
Qed.
End Closed.

Lemma for_from_S (body : nat → M St Ev unit) lo n :
  for_from lo (S n) body = (body lo;; for_from (S lo) n body).
Proof. reflexivity. Qed.

(** The trace and the outcome of a loop, one more turn at its end. *)
Lemma for_from_snoc (body : nat → M St Ev unit) lo n :
  ∀ s, for_from lo (S n) body s =
       (for_from lo n body;; body (lo + n)%nat) s.
Proof.
  revert lo. induction n as [|n IH]; intros lo s.
  - simpl. rewrite !bind_run. simpl. rewrite Nat.add_0_r.
    destruct (body lo s) as [t1 [[[] s1]|e]]; simpl; [|done].
    by rewrite app_nil_r.
  - rewrite (for_from_S body lo (S n)), bind_run.
    rewrite (bind_run (for_from lo (S n) body)).
    rewrite (for_from_S body lo n), (bind_run (body lo)).
    destruct (body lo s) as [t1 [[[] s1]|e]]; cbv beta iota; [|done].
    rewrite IH, !bind_run.
    replace (lo + S n)%nat with (S lo + n)%nat by lia.
    destruct (for_from (S lo) n body s1) as [t2 [[[] s2]|e]]; simpl; [|done].
    by rewrite app_assoc.
Qed.
End MonadFacts.

(** ** The scan of the info dicts and the masks *)

Lemma has_key_dom (k : string) (i : info) : has_key k i = true ↔ k ∈ dom i.
Proof. unfold has_key. by rewrite bool_decide_eq_true, elem_of_dom. Qed.

Lemma masks_of_done_lookup (done : list bool) (p : nat) :
  masks_of_done done !! p =
  (fun d : bool => if d then 0%Q else 1%Q) <$> done !! p.
Proof. unfold masks_of_done. apply list_lookup_fmap. Qed.

Lemma masks_of_done_binary (done : list bool) :
  Forall (fun x => x = 0%Q ∨ x = 1%Q) (masks_of_done done).
Proof.
  induction done as [|[] done IH]; simpl; constructor; auto.
Qed.

(** After the scan, the bad-mask array has its length of before; the slot
    of every scanned dict that holds the truncation flag is [0], every
    other slot is as before. *)
Lemma scan_infos_bad_masks (maxlen : nat) (infos : list info) :
  ∀ (k : nat) (bm er bm' er' : list Q),
    scan_infos maxlen k infos bm er = Ok (bm', er') →
    length bm' = length bm ∧
    ∀ p : nat,
      bm' !! p =
      match (if decide (k ≤ p)%nat then infos !! (p - k)%nat else None) with
      | Some i => if has_key "bad_transition" i then Some 0%Q else bm !! p
      | None => bm !! p
      end.
Proof.
  induction infos as [|i rest IH]; intros k bm er bm' er' Hscan.
  - injection Hscan as <- <-. split; [done|]. intros p.
    case_decide; by rewrite ?lookup_nil.
  - cbn [scan_infos] in Hscan.
    destruct (has_key "bad_transition" i) eqn:Hkey.
    + unfold set_zero in Hscan. case_decide as Hk; [|done].
      cbn in Hscan.
      destruct (if has_key "episode" i then _ else _) as [er1|]; [|done].
      cbn in Hscan. apply IH in Hscan as [Hlen Hlook].
      rewrite length_insert in Hlen. split; [done|]. intros p.
      rewrite Hlook. destruct (decide (p = k)) as [->|Hne].
      * rewrite decide_False by lia. rewrite decide_True by lia.
        rewrite Nat.sub_diag. cbn. rewrite Hkey.
        by apply list_lookup_insert_eq.
      * rewrite list_lookup_insert_ne by done.
        destruct (decide (S k ≤ p)%nat) as [Hle|Hnle].
        -- rewrite decide_True by lia.
           replace (p - k)%nat with (S (p - S k)) by lia. done.
        -- rewrite decide_False by lia. done.
    + cbn in Hscan.
      destruct (if has_key "episode" i then _ else _) as [er1|]; [|done].
      cbn in Hscan. apply IH in Hscan as [Hlen Hlook].
      split; [done|]. intros p.
      rewrite Hlook. destruct (decide (p = k)) as [->|Hne].
      * rewrite decide_False by lia. rewrite decide_True by lia.
        rewrite Nat.sub_diag. cbn. by rewrite Hkey.
      * destruct (decide (S k ≤ p)%nat) as [Hle|Hnle].
        -- rewrite decide_True by lia.
           replace (p - k)%nat with (S (p - S k)) by lia. done.
        -- rewrite decide_False by lia. done.
Qed.

(** The bad masks built from [np.ones]: for a process with an info dict,
    [0] with the flag and [1] without. *)
Lemma scan_infos_ones (n : nat) (infos : list info) (er bm' er' : list Q) :
  scan_infos n 0 infos (np_ones n) er = Ok (bm', er') →
  length bm' = n ∧
  ∀ (p : nat) (i : info),
    (p < n)%nat → infos !! p = Some i →
    bm' !! p = Some (if has_key "bad_transition" i then 0%Q else 1%Q).
Proof.
  intros [Hlen Hlook]%scan_infos_bad_masks.
  unfold np_ones in *. rewrite length_replicate in Hlen. split; [done|].
  intros p i Hp Hi. rewrite Hlook, decide_True, Nat.sub_0_r, Hi by lia.
  destruct (has_key _ i); [done|]. by apply lookup_replicate_2.
Qed.

(** ** The names of the checkpoint files *)

Definition digit_or_dash (ch : ascii) : bool :=
  bool_decide (ch ∈ ["0";"1";"2";"3";"4";"5";"6";"7";"8";"9";"-"]%char).

Definition numeric_head (s : string) : Prop :=
  match s with
  | String ch _ => digit_or_dash ch = true
  | EmptyString => False
  end.

Lemma pretty_N_char_digit (x : N) : digit_or_dash (pretty_N_char x) = true.
Proof. unfold pretty_N_char. by repeat case_match. Qed.

Lemma pretty_N_go_head (x : N) :
  ∀ s, (0 < x)%N → numeric_head (pretty_N_go x s).
Proof.
  induction (N.lt_wf_0 x) as [x _ IH]; intros s Hx.
  rewrite pretty_N_go_step by done.
  destruct (decide (x `div` 10 = 0)%N) as [->|Hne].
  - rewrite pretty_N_go_0. simpl. apply pretty_N_char_digit.
  - apply IH; [by apply N.div_lt|by apply N.neq_0_lt_0].
Qed.

(** A printed integer starts with a digit or with the sign. *)
Lemma pretty_Z_head (n : Z) : numeric_head (pretty n).
Proof.
  destruct n as [|p|p]; unfold pretty, pretty_Z; [done| |done].
  unfold pretty, pretty_positive, pretty, pretty_N.
  rewrite decide_False by done. by apply pretty_N_go_head.
Qed.

Lemma model_name_latest_best (env : string) :
  model_name env Latest ≠ model_name env Best.
Proof. unfold model_name. by intros [=]%(inj (String.append env)). Qed.

(** A snapshot never has the name of the latest or of the best model. *)
Lemma model_name_snapshot (env : string) (n : Z) (t : tag) :
  t = Latest ∨ t = Best → model_name env t ≠ model_name env (Snapshot n).
Proof.
  unfold model_name. intros Ht [= H]%(inj (String.append env)).
  pose proof (pretty_Z_head n) as Hhead. simpl in H.
  destruct (pretty n) as [|ch rest]; [done|]. simpl in *.
  destruct Ht as [-> | ->]; by injection H as <- _.
Qed.

(** ** One environment step *)

Ltac run_monad :=
  unfold call, emit, gets, modify, lift, mbind, M_bind, mret, M_ret; simpl.

Section DriverFacts.
Context {World Obs HState Action LogProb Model Storage : Type}.
Abbreviation collab' :=
  (@collab World Obs HState Action LogProb Model Storage).
Abbreviation driver' := (@driver World Obs Model Storage).
Abbreviation event' := (@event Obs HState Action LogProb).
Abbreviation insert_args' := (@insert_args Obs HState Action LogProb).
Variable c : collab'.
Variable a : args.
Implicit Types (s : driver') (tr : list event').

(** What [collect_step] does, spelled out. *)
Lemma collect_step_run step s :
  collect_step c a step s =
  let '(w1, (value, action, action_log_prob, states)) :=
    act c (world s) (actor_critic s)
        (rollouts_observations c (rollouts s) (Z.of_nat step))
        (rollouts_states c (rollouts s) (Z.of_nat step))
        (rollouts_masks c (rollouts s) (Z.of_nat step)) in
  let '(w2, (obs, reward, done, infos)) := envs_step c w1 action in
  match scan_infos (num_processes a) 0 infos (np_ones (num_processes a))
                   (episode_rewards s) with
  | Ok (bad_masks, window) =>
      let ia := InsertArgs obs states action action_log_prob value reward
                           (masks_of_done done) bad_masks in
      ([EvAct step; EvEnvStep action done infos; EvInsert ia],
       Ok (tt, Driver w2 (actor_critic s)
                 (rollouts_insert c (rollouts s) ia) obs window
                 (next_checkpoint s) (max_ep_reward s)))
  | Raise e => ([EvAct step; EvEnvStep action done infos], Raise e)
  end.
Proof.
  unfold collect_step. run_monad.
  destruct (act c _ _ _ _ _) as [w1 [[[value action] lp] states]]. simpl.
  destruct (envs_step c w1 action) as [w2 [[[obs reward] done] infos]]. simpl.
  destruct (scan_infos _ _ _ _ _) as [[bm win]|e]; reflexivity.
Qed.

(** ** Trace properties of the whole run *)

(** The events of the collection phase, and those of a write. *)
Definition is_collect (e : event') : bool :=
  match e with
  | EvAct _ | EvEnvStep _ _ _ | EvInsert _ => true
  | _ => false
  end.

Definition is_save (e : event') : bool :=
  match e with
  | EvSave _ _ _ => true
  | _ => false
  end.

(** A property kept by concatenation that holds of an environment step,
    of a write, and of any other single call holds of the whole run. *)
Section TraceProperty.
Variable Φ : list event' → option exn → Prop.
Hypothesis Φ_nil : ∀ r, Φ [] r.
Hypothesis Φ_app : ∀ t1 t2 r, Φ t1 None → Φ t2 r → Φ (t1 ++ t2) r.
Hypothesis Φ_other :
  ∀ e, is_collect e = false → is_save e = false → Φ [e] None.
Hypothesis Φ_step : ∀ step, emits Φ (collect_step c a step).
Hypothesis Φ_save : ∀ m dir name, emits Φ (save c m dir name).

Local Ltac emits_step :=
  match goal with
  | |- emits _ (mbind _ _) => apply (emits_bind _ Φ_app)
  | |- emits _ (mret _) => apply (emits_ret _ Φ_nil)
  | |- emits _ (gets _) => apply (emits_gets _ Φ_nil)
  | |- emits _ (modify _) => apply (emits_modify _ Φ_nil)
  | |- emits _ (lift _) => apply (emits_lift _ Φ_nil)
  | |- emits _ (emit _) => apply emits_emit, Φ_other; reflexivity
  | |- emits _ (save _ _ _ _) => apply Φ_save
  | |- emits _ (for_range _ _) => apply (emits_for_from _ Φ_nil Φ_app)
  | |- emits _ (collect_step _ _ _) => apply Φ_step
  | |- emits _ (match ?x with _ => _ end) => destruct x
  | |- ∀ _, _ => intro
  end.

Lemma emits_call {A} (f : World → World * A) :
  emits Φ (call f : M driver' event' A).
Proof using Φ_nil Φ_app. unfold call. repeat emits_step. Qed.

Lemma emits_push_lr x : emits Φ (push_lr c x).
Proof using Φ_nil Φ_app Φ_other. unfold push_lr. repeat emits_step. Qed.

Lemma emits_collect_and_update : emits Φ (collect_and_update c a).
Proof using Φ_nil Φ_app Φ_other Φ_step.
  unfold collect_and_update.
  repeat first [apply emits_call | emits_step].
Qed.

Lemma emits_checkpoint num_updates j : emits Φ (checkpoint c a num_updates j).
Proof using Φ_nil Φ_app Φ_save.
  unfold checkpoint. repeat emits_step.
Qed.

Lemma emits_log_epoch start j losses : emits Φ (log_epoch c a start j losses).
Proof using Φ_nil Φ_app Φ_other.
  unfold log_epoch. repeat first [apply emits_call | emits_step].
Qed.

Lemma emits_iteration num_updates start j :
  emits Φ (iteration c a num_updates start j).
Proof using Φ_nil Φ_app Φ_other Φ_step Φ_save.
  unfold iteration.
  repeat first [apply emits_push_lr | apply emits_collect_and_update
               | apply emits_checkpoint | apply emits_log_epoch
               | emits_step].
Qed.

Lemma emits_train : emits Φ (train c a).
Proof using Φ_nil Φ_app Φ_other Φ_step Φ_save.
  unfold train.
  repeat first [apply emits_call | apply emits_iteration | emits_step].
Qed.
End TraceProperty.

(** ** The masks handed to the storage (C2, C3) *)

(** Every [insert] of the trace comes right after the environment step
    whose response it stores, and [P] relates the two. *)
Definition step_then_insert
    (P : list bool → list info → insert_args' → Prop) tr : Prop :=
  (∀ ia t, tr ≠ EvInsert ia :: t) ∧
  ∀ t1 ia t2,
    tr = t1 ++ EvInsert ia :: t2 →
    ∃ t0 action done infos,
      t1 = t0 ++ [EvEnvStep action done infos] ∧ P done infos ia.

Lemma step_then_insert_nil P : step_then_insert P [].
Proof.
  split; [done|]. intros t1 ia t2 H. by destruct t1.
Qed.

Lemma step_then_insert_app P t1 t2 :
  step_then_insert P t1 → step_then_insert P t2 →
  step_then_insert P (t1 ++ t2).
Proof.
  intros [Hh1 H1] [Hh2 H2]. split.
  - intros ia t Heq. destruct t1 as [|e t1]; simpl in Heq.
    + by eapply Hh2.
    + injection Heq as -> _. by eapply Hh1.
  - intros u1 ia u2 Heq.
    apply app_eq_inv in Heq as [[k [-> Hk]]|[k [-> Hk]]].
    + destruct k as [|e k]; simpl in Hk.
      * exfalso. by eapply Hh2.
      * injection Hk as <- ->.
        rewrite app_nil_r || idtac.
        by eapply H1.
    + apply H2 in Hk as (t0 & action & done & infos & -> & HP).
      exists (t1 ++ t0), action, done, infos. by rewrite app_assoc.
Qed.

Lemma step_then_insert_other P e :
  is_collect e = false → step_then_insert P [e].
Proof.
  intros He. split.
  - intros ia t [= -> _]. done.
  - intros t1 ia t2 Heq. destruct t1 as [|x [|y t1]]; simplify_eq/=.
Qed.

(** What the driver hands to [insert] after an environment step that
    returned [done] and [infos]. *)
Definition inserted (done : list bool) (infos : list info)
    (ia : insert_args') : Prop :=
  ia_masks ia = masks_of_done done ∧
  ∃ window window',
    scan_infos (num_processes a) 0 infos (np_ones (num_processes a)) window
    = Ok (ia_bad_masks ia, window').

Lemma collect_step_inserts step :
  emits (fun tr _ => step_then_insert inserted tr) (collect_step c a step).
Proof.
  intros s. rewrite collect_step_run.
  destruct (act c _ _ _ _ _) as [w1 [[[value action] lp] states]].
  destruct (envs_step c w1 action) as [w2 [[[obs reward] done] infos]].
  destruct (scan_infos _ _ _ _ _) as [[bm win]|e] eqn:Hscan; simpl.
  - split; [done|]. intros t1 ia t2 Heq.
    destruct t1 as [|x [|y [|z t1]]]; simplify_eq/=.
    + exists [EvAct step], action, done, infos. split; [done|].
      split; [done|]. simpl. eauto.
    + by destruct t1.
  - split; [done|]. intros t1 ia t2 Heq.
    destruct t1 as [|x [|y [|z t1]]]; simplify_eq/=.
Qed.

Lemma save_run m dir name s :
  save c m dir name s =
  match torch_save c (world s) m (os_path_join dir name) with
  | Some w' => ([EvSave dir name true], Ok (tt, set_world w' s))
  | None => ([EvSave dir name false], Raise OSError)
  end.
Proof.
  unfold save. run_monad. by destruct (torch_save c _ _ _).
Qed.

Lemma train_inserts :
  emits (fun tr _ => step_then_insert inserted tr) (train c a).
Proof.
  apply emits_train.
  - intros _. apply step_then_insert_nil.
  - intros t1 t2 _. apply step_then_insert_app.
  - intros e He _. by apply step_then_insert_other.
  - apply collect_step_inserts.
  - intros m dir name s. rewrite save_run.
    destruct (torch_save c _ _ _); by apply step_then_insert_other.
Qed.

(** C2.  In a run of the training loop, every [insert] stores the
    response of the environment step made just before it, and the mask it
    stores for a process is 0 when the [done] flag of that process is set
    and 1 when it is not; no mask has another value. *)
Theorem mask_is_zero_iff_done w m r o tr1 ia tr2 :
  (main c a w m r o).1 = tr1 ++ EvInsert ia :: tr2 →
  ∃ t0 action done infos,
    tr1 = t0 ++ [EvEnvStep action done infos] ∧
    length (ia_masks ia) = length done ∧
    (∀ (p : nat) (done_ : bool),
       done !! p = Some done_ →
       ia_masks ia !! p = Some (if done_ then 0%Q else 1%Q)) ∧
    Forall (fun x => x = 0%Q ∨ x = 1%Q) (ia_masks ia).
Proof.
  intros Heq. unfold main in Heq.
  destruct (train_inserts (Driver w m r o [] (save_every a) NegInf))
    as [_ Hins].
  apply Hins in Heq as (t0 & action & done & infos & -> & Hm & _).
  exists t0, action, done, infos. rewrite Hm. split; [done|].
  split; [unfold masks_of_done; by rewrite length_map|]. split.
  - intros p d Hd. by rewrite masks_of_done_lookup, Hd.
  - apply masks_of_done_binary.
Qed.

(** C3.  In a run of the training loop, every [insert] stores the
    response of the environment step made just before it, with one bad
    mask per process; the bad mask of a process is 0 exactly when the
    info dict the environment returned for it has the key
    [bad_transition], and 1 exactly when it has not. *)
Theorem bad_mask_is_zero_iff_bad_transition w m r o tr1 ia tr2 :
  (main c a w m r o).1 = tr1 ++ EvInsert ia :: tr2 →
  ∃ t0 action done infos,
    tr1 = t0 ++ [EvEnvStep action done infos] ∧
    length (ia_bad_masks ia) = num_processes a ∧
    ∀ (p : nat) (i : info),
      (p < num_processes a)%nat → infos !! p = Some i →
      (ia_bad_masks ia !! p = Some 0%Q ↔ "bad_transition" ∈ dom i) ∧
      (ia_bad_masks ia !! p = Some 1%Q ↔ "bad_transition" ∉ dom i).
Proof.
  intros Heq. unfold main in Heq.
  destruct (train_inserts (Driver w m r o [] (save_every a) NegInf))
    as [_ Hins].
  apply Hins in Heq as (t0 & action & done & infos & -> & _ & Hscan).
  destruct Hscan as (win & win' & [Hlen Hlook]%scan_infos_ones).
  exists t0, action, done, infos. split; [done|]. split; [done|].
  intros p i Hp Hi. rewrite (Hlook p i Hp Hi), <-has_key_dom.
  destruct (has_key "bad_transition" i); split; split; try done.
  all: intros H; by destruct H.
Qed.

(** ** The phases of an iteration, spelled out *)

Lemma push_lr_run x s :
  push_lr c x s =
  ([EvSetLr x],
   Ok (tt, set_actor_critic (set_optimizer_lr c (actor_critic s) x) s)).
Proof. reflexivity. Qed.

(** The event of one environment step and of the insert that follows. *)
Definition step_events (k : nat)
    (x : Action * list bool * list info * insert_args') : list event' :=
  [EvAct k; EvEnvStep x.1.1.1 x.1.1.2 x.1.2; EvInsert x.2].

(** A collection loop that comes to its end has made one environment step
    and one insert per turn; it leaves the model, the next checkpoint and
    the best mean alone, and the storage is the one of before with the
    inserts made in their order. *)
Lemma collect_loop_ok n :
  ∀ lo s tr s',
    for_from lo n (collect_step c a) s = (tr, Ok (tt, s')) →
    ∃ steps,
      length steps = n ∧
      tr = concat (imap (fun k => step_events (lo + k)) steps) ∧
      rollouts s' =
        foldl (fun st x => rollouts_insert c st x.2) (rollouts s) steps ∧
      actor_critic s' = actor_critic s ∧
      next_checkpoint s' = next_checkpoint s ∧
      max_ep_reward s' = max_ep_reward s.
Proof.
  induction n as [|n IH]; intros lo s tr s' Hrun.
  - injection Hrun as <- <-. by exists [].
  - rewrite for_from_S in Hrun.
    apply bind_ok in Hrun as (t1 & [] & s1 & t2 & Hstep & Hrest & ->).
    apply IH in Hrest as (steps & Hlen & -> & Hr & Hm & Hn & Hb).
    rewrite collect_step_run in Hstep.
    destruct (act c _ _ _ _ _) as [w1 [[[value action] lp] states]].
    destruct (envs_step c w1 action) as [w2 [[[obs reward] done] infos]].
    destruct (scan_infos _ _ _ _ _) as [[bm win]|e]; [|done].
    injection Hstep as <- <-. simpl in *.
    eexists ((action, done, infos, _) :: steps). simpl.
    rewrite Nat.add_0_r. split; [by rewrite Hlen|].
    split; [|done]. do 3 f_equal. f_equal.
    apply imap_ext. intros k x _. simpl. by rewrite Nat.add_succ_r.
Qed.

(** Every event of a collection loop, finished or not, is an event of the
    collection phase. *)
Lemma collect_loop_events lo n :
  emits (fun tr _ => Forall (fun e => is_collect e = true) tr)
        (for_from lo n (collect_step c a)).
Proof.
  apply emits_for_from;
    [constructor|intros t1 t2 _; apply Forall_app_2|].
  intros step s. rewrite collect_step_run.
  destruct (act c _ _ _ _ _) as [w1 [[[value action] lp] states]].
  destruct (envs_step c w1 action) as [w2 [[[obs reward] done] infos]].
  destruct (scan_infos _ _ _ _ _) as [[bm win]|e]; simpl;
    repeat constructor.
Qed.

Lemma log_epoch_run start j losses s :
  log_epoch c a start j losses s =
  if (1 <? length (episode_rewards s))%nat
  then
    let '(w', end_) := time_time c (world s) in
    let total_num_steps :=
      ((Z.of_nat j + 1) * Z.of_nat (num_processes a)
       * Z.of_nat (num_steps a))%Z in
    match truediv (inject_Z total_num_steps) (end_ - start)%Q with
    | Ok fps =>
        ([EvLog (LogRecord (Z.of_nat j + 1) total_num_steps
                   (int_of_float fps) (losses.2) (losses.1.1)
                   (losses.1.2) (episode_rewards s))],
         Ok (tt, set_world w' s))
    | Raise e => ([], Raise e)
    end
  else ([], Ok (tt, s)).
Proof.
  unfold log_epoch. run_monad.
  destruct (1 <? length (episode_rewards s))%nat; [|done].
  destruct (time_time c (world s)) as [w' end_]. simpl.
  by destruct (truediv _ _).
Qed.

Lemma collect_and_update_ok s tr losses s1 :
  collect_and_update c a s = (tr, Ok (losses, s1)) →
  ∃ steps next_value w w',
    let filled :=
      foldl (fun st x => rollouts_insert c st x.2) (rollouts s) steps in
    let with_returns :=
      rollouts_compute_returns c filled next_value
        (use_gae a) (gamma a) (gae_lambda a) in
    length steps = num_steps a ∧
    tr = concat (imap step_events steps)
         ++ [EvGetValue (rollouts_observations c filled (-1))
                        (rollouts_states c filled (-1))
                        (rollouts_masks c filled (-1));
             EvComputeReturns next_value (use_gae a) (gamma a) (gae_lambda a);
             EvUpdate losses.1.1 losses.1.2 losses.2;
             EvAfterUpdate] ∧
    agent_update c w (actor_critic s) with_returns
      = (w', (actor_critic s1, losses)) ∧
    rollouts s1 = rollouts_after_update c with_returns ∧
    next_checkpoint s1 = next_checkpoint s ∧
    max_ep_reward s1 = max_ep_reward s.
Proof.
  unfold collect_and_update, for_range. intros Hrun.
  apply bind_ok in Hrun as (t1 & [] & s0 & t2 & Hloop & Hrest & ->).
  apply collect_loop_ok in Hloop as (steps & Hlen & -> & Hr & Hm & Hn & Hb).
  revert Hrest. run_monad.
  destruct (get_value c _ _ _ _ _) as [w1 nv] eqn:Hgv. simpl.
  destruct (agent_update c _ _ _) as [w2 [m [[vl al] ent]]] eqn:Hup. simpl.
  intros [= <- <- <-]. simpl.
  exists steps, nv, w1, w2. simpl. rewrite <-Hr, <-Hm.
  repeat split; done.
Qed.

(** The same, with the call that gives the bootstrap value: [get_value]
    on the last slot of the filled storage, in the world the steps have
    left, and the update in the world [get_value] has left. *)
Lemma collect_and_update_bootstrap s tr losses s1 :
  collect_and_update c a s = (tr, Ok (losses, s1)) →
  ∃ steps next_value w0 w w',
    let filled :=
      foldl (fun st x => rollouts_insert c st x.2) (rollouts s) steps in
    let with_returns :=
      rollouts_compute_returns c filled next_value
        (use_gae a) (gamma a) (gae_lambda a) in
    length steps = num_steps a ∧
    tr = concat (imap step_events steps)
         ++ [EvGetValue (rollouts_observations c filled (-1))
                        (rollouts_states c filled (-1))
                        (rollouts_masks c filled (-1));
             EvComputeReturns next_value (use_gae a) (gamma a) (gae_lambda a);
             EvUpdate losses.1.1 losses.1.2 losses.2;
             EvAfterUpdate] ∧
    get_value c w0 (actor_critic s)
              (rollouts_observations c filled (-1))
              (rollouts_states c filled (-1))
              (rollouts_masks c filled (-1)) = (w, next_value) ∧
    agent_update c w (actor_critic s) with_returns
      = (w', (actor_critic s1, losses)) ∧
    rollouts s1 = rollouts_after_update c with_returns ∧
    next_checkpoint s1 = next_checkpoint s ∧
    max_ep_reward s1 = max_ep_reward s.
Proof.
  unfold collect_and_update, for_range. intros Hrun.
  apply bind_ok in Hrun as (t1 & [] & s0 & t2 & Hloop & Hrest & ->).
  apply collect_loop_ok in Hloop as (steps & Hlen & -> & Hr & Hm & Hn & Hb).
  revert Hrest. run_monad.
  destruct (get_value c _ _ _ _ _) as [w1 nv] eqn:Hgv. simpl.
  destruct (agent_update c _ _ _) as [w2 [m [[vl al] ent]]] eqn:Hup. simpl.
  intros [= <- <- <-]. simpl.
  exists steps, nv, (world s0), w1, w2. simpl. rewrite <-Hr, <-Hm.
  repeat split; done.
Qed.

(** The files an iteration that got as far as the checkpoint writes, as
    pairs of a directory and a name, in the order of the writes. *)
Definition checkpoint_files (num_updates : Z) (j : nat) s
    : list (string * string) :=
  let name :=
    if snapshot_due a num_updates j (next_checkpoint s)
    then model_name (env_name a) (Snapshot (int_of_float (next_checkpoint s)))
    else model_name (env_name a) Latest in
  [(drive_dir, name); (save_dir a, name)]
  ++ (if improved (episode_rewards s) (max_ep_reward s)
      then [(drive_dir, model_name (env_name a) Best);
            (save_dir a, model_name (env_name a) Best)]
      else []).

(** The bookkeeping of the checkpoint phase. *)
Definition checkpoint_state (num_updates : Z) (j : nat) s : driver' :=
  let s1 :=
    if snapshot_due a num_updates j (next_checkpoint s)
    then set_next_checkpoint (next_checkpoint s + save_every a)%Q s
    else s in
  if improved (episode_rewards s) (max_ep_reward s)
  then set_max_ep_reward (Fin (np_mean (episode_rewards s))) s1
  else s1.

Lemma checkpoint_state_window num_updates j s :
  episode_rewards (checkpoint_state num_updates j s) = episode_rewards s.
Proof.
  unfold checkpoint_state.
  by destruct (snapshot_due _ _ _ _), (improved _ _).
Qed.

Lemma checkpoint_state_model num_updates j s :
  actor_critic (checkpoint_state num_updates j s) = actor_critic s.
Proof.
  unfold checkpoint_state.
  by destruct (snapshot_due _ _ _ _), (improved _ _).
Qed.

Lemma checkpoint_state_rollouts num_updates j s :
  rollouts (checkpoint_state num_updates j s) = rollouts s.
Proof.
  unfold checkpoint_state.
  by destruct (snapshot_due _ _ _ _), (improved _ _).
Qed.

(** Writes in a row. *)
Fixpoint save_all (m : Model) (files : list (string * string))
    : M driver' event' unit :=
  match files with
  | [] => mret tt
  | f :: files' => save c m f.1 f.2;; save_all m files'
  end.

Definition save_event (f : string * string) : event' :=
  EvSave f.1 f.2 true.

Lemma checkpoint_run num_updates j s :
  checkpoint c a num_updates j s =
  save_all (if cuda a then cpu_copy c (actor_critic s) else actor_critic s)
           (checkpoint_files num_updates j s)
           (checkpoint_state num_updates j s).
Proof.
  unfold checkpoint, checkpoint_files, checkpoint_state.
  destruct (improved (episode_rewards s) (max_ep_reward s)) eqn:Himp;
    destruct (snapshot_due a num_updates j (next_checkpoint s)) eqn:Hdue;
    simpl; unfold save; run_monad; rewrite Hdue; simpl;
    repeat (destruct (torch_save c _ _ _); simpl; rewrite ?Himp; try done).
Qed.

Lemma save_all_ok m files :
  ∀ s tr s',
    save_all m files s = (tr, Ok (tt, s')) →
    tr = map save_event files ∧ s' = set_world (world s') s.
Proof.
  induction files as [|f files IH]; intros s tr s' Hrun.
  - injection Hrun as <- <-. by destruct s.
  - simpl in Hrun.
    apply bind_ok in Hrun as (t1 & [] & s1 & t2 & Hsave & Hrest & ->).
    rewrite save_run in Hsave.
    destruct (torch_save c _ _ _); [|done]. injection Hsave as <- <-.
    apply IH in Hrest as [-> Hs']. split; [done|].
    rewrite Hs' at 1. by destruct s.
Qed.

(** Writes in a row stop at the first that fails, and fail with it. *)
Lemma save_all_raise m files :
  ∀ s tr e,
    save_all m files s = (tr, Raise e) →
    e = OSError ∧
    ∃ done f rest w,
      files = done ++ f :: rest ∧
      tr = map save_event done ++ [EvSave f.1 f.2 false] ∧
      torch_save c w m (os_path_join f.1 f.2) = None.
Proof.
  induction files as [|f files IH]; intros s tr e Hrun; [done|].
  simpl in Hrun. apply bind_raise in Hrun as [Hsave|Hrun].
  - rewrite save_run in Hsave.
    destruct (torch_save c _ _ _) eqn:Hts; [done|].
    injection Hsave as <- <-. split; [done|].
    by exists [], f, files, (world s).
  - destruct Hrun as (t1 & [] & s1 & t2 & Hsave & Hrest & ->).
    rewrite save_run in Hsave.
    destruct (torch_save c _ _ _); [|done]. injection Hsave as <- <-.
    apply IH in Hrest as [-> (done & f' & rest & w1 & -> & -> & Hfail)].
    split; [done|]. by exists (f :: done), f', rest, w1.
Qed.

(** The record of iteration [j], for a clock reading that makes [fps]
    the frames per second. *)
Definition record_of (j : nat) (fps : Q) (losses : Q * Q * Q)
    (window : list Q) : log_record :=
  LogRecord (Z.of_nat j + 1)
            ((Z.of_nat j + 1) * Z.of_nat (num_processes a)
             * Z.of_nat (num_steps a))%Z
            (int_of_float fps) (losses.2) (losses.1.1) (losses.1.2) window.

(** What an iteration that comes to its end logs: one record when the
    window holds more than one reward, nothing otherwise. *)
Definition logs_for (start : Q) (j : nat) (losses : Q * Q * Q)
    (window : list Q) (logs : list event') : Prop :=
  if (1 <? length window)%nat
  then ∃ w fps,
         truediv (inject_Z ((Z.of_nat j + 1) * Z.of_nat (num_processes a)
                            * Z.of_nat (num_steps a)))
                 ((time_time c w).2 - start)%Q = Ok fps ∧
         logs = [EvLog (record_of j fps losses window)]
  else logs = [].

Lemma log_epoch_ok start j losses s tr s' :
  log_epoch c a start j losses s = (tr, Ok (tt, s')) →
  logs_for start j losses (episode_rewards s) tr ∧
  s' = set_world (world s') s.
Proof.
  rewrite log_epoch_run. unfold logs_for.
  destruct (1 <? length (episode_rewards s))%nat.
  - destruct (time_time c (world s)) as [w' end_] eqn:Htime.
    destruct (truediv _ _) as [fps|] eqn:Hdiv; [|done].
    intros [= <- <-]. split; [|by destruct s].
    exists (world s), fps. by rewrite Htime.
  - intros [= <- <-]. split; [done|by destruct s].
Qed.

(** An iteration that comes to its end, in full: the calls it made, in
    their order, and the state it leaves.  [s1] is the state at the entry
    of the checkpoint phase. *)
Lemma iteration_ok num_updates start j s tr s' :
  iteration c a num_updates start j s = (tr, Ok (tt, s')) →
  ∃ steps next_value losses s1 w w' logs,
    let lr_set :=
      set_optimizer_lr c (actor_critic s) (scheduled_lr c a num_updates j) in
    let filled :=
      foldl (fun st x => rollouts_insert c st x.2) (rollouts s) steps in
    let with_returns :=
      rollouts_compute_returns c filled next_value
        (use_gae a) (gamma a) (gae_lambda a) in
    length steps = num_steps a ∧
    tr = [EvSetLr (scheduled_lr c a num_updates j)]
         ++ concat (imap step_events steps)
         ++ [EvGetValue (rollouts_observations c filled (-1))
                        (rollouts_states c filled (-1))
                        (rollouts_masks c filled (-1));
             EvComputeReturns next_value (use_gae a) (gamma a) (gae_lambda a);
             EvUpdate losses.1.1 losses.1.2 losses.2;
             EvAfterUpdate]
         ++ map save_event (checkpoint_files num_updates j s1)
         ++ logs ∧
    logs_for start j losses (episode_rewards s1) logs ∧
    agent_update c w lr_set with_returns = (w', (actor_critic s1, losses)) ∧
    rollouts s1 = rollouts_after_update c with_returns ∧
    next_checkpoint s1 = next_checkpoint s ∧
    max_ep_reward s1 = max_ep_reward s ∧
    s' = set_world (world s') (checkpoint_state num_updates j s1).
Proof.
  unfold iteration. intros Hrun.
  apply bind_ok in Hrun as (t0 & [] & s0 & t' & Hlr & Hrun & ->).
  rewrite push_lr_run in Hlr. injection Hlr as <- <-.
  apply bind_ok in Hrun as (t1 & losses & s1 & t'' & Hcu & Hrun & ->).
  apply bind_ok in Hrun as (t2 & [] & s2 & t3 & Hck & Hlog & ->).
  apply collect_and_update_ok in Hcu
    as (steps & nv & w & w' & Hlen & -> & Hup & Hr & Hn & Hb).
  rewrite checkpoint_run in Hck. apply save_all_ok in Hck as [-> Hs2].
  apply log_epoch_ok in Hlog as [Hlogs Hs'].
  rewrite Hs2 in Hlogs. simpl in Hlogs. rewrite checkpoint_state_window in Hlogs.
  exists steps, nv, losses, s1, w, w', t3. simpl in *.
  split; [done|]. split; [f_equal; by rewrite <-app_assoc|].
  repeat split; try done.
  rewrite Hs', Hs2. by destruct (checkpoint_state _ _ _).
Qed.

(** ** The order of the phases (C1) *)

(** The phase of an iteration a call belongs to. *)
Definition phase (e : event') : nat :=
  match e with
  | EvSetLr _ => 0
  | EvAct _ | EvEnvStep _ _ _ | EvInsert _ => 1
  | EvGetValue _ _ _ => 2
  | EvComputeReturns _ _ _ _ => 3
  | EvUpdate _ _ _ => 4
  | EvAfterUpdate => 5
  | EvSave _ _ _ => 6
  | EvLog _ => 7
  end.

(** No call of a later phase comes before a call of an earlier one. *)
Definition ordered tr : Prop :=
  ∀ (i k : nat) (x y : event'),
    (i < k)%nat → tr !! i = Some x → tr !! k = Some y →
    (phase x ≤ phase y)%nat.

Definition within (lo hi : nat) tr : Prop :=
  ordered tr ∧ Forall (fun e => (lo ≤ phase e ≤ hi)%nat) tr.

Lemma within_nil lo hi : within lo hi [].
Proof. split; [|constructor]. intros i k x y _ Hx. by rewrite lookup_nil in Hx. Qed.

Lemma within_one lo hi e : (lo ≤ phase e ≤ hi)%nat → within lo hi [e].
Proof.
  intros He. split; [|by apply Forall_singleton].
  intros [|i] [|k] x y Hik Hx Hy; try lia; simpl in *;
    by rewrite ?lookup_nil in *.
Qed.

Lemma within_weaken lo hi lo' hi' tr :
  (lo' ≤ lo)%nat → (hi ≤ hi')%nat → within lo hi tr → within lo' hi' tr.
Proof.
  intros Hlo Hhi [Ho Hf]. split; [done|].
  eapply Forall_impl; [done|]. simpl. lia.
Qed.

Lemma within_app lo mid hi t1 t2 :
  (lo ≤ mid ≤ hi)%nat →
  within lo mid t1 → within mid hi t2 → within lo hi (t1 ++ t2).
Proof.
  intros Hmid [Ho1 Hf1] [Ho2 Hf2]. split.
  - intros i k x y Hik Hx Hy.
    destruct (decide (k < length t1)%nat) as [Hk|Hk].
    + rewrite lookup_app_l in Hx, Hy by lia. exact (Ho1 i k x y Hik Hx Hy).
    + rewrite lookup_app_r in Hy by lia.
      rewrite Forall_lookup in Hf2. apply Hf2 in Hy as Hy'.
      destruct (decide (i < length t1)%nat) as [Hi|Hi].
      * rewrite lookup_app_l in Hx by lia.
        rewrite Forall_lookup in Hf1. apply Hf1 in Hx. lia.
      * rewrite lookup_app_r in Hx by lia.
        apply (Ho2 (i - length t1)%nat (k - length t1)%nat x y); [lia|done..].
  - apply Forall_app_2; (eapply Forall_impl; [done|]); simpl; lia.
Qed.

Lemma within_same k tr :
  Forall (fun e => phase e = k) tr → within k k tr.
Proof.
  intros Hf. split.
  - intros i j x y _ Hx Hy. rewrite Forall_lookup in Hf.
    apply Hf in Hx, Hy. lia.
  - eapply Forall_impl; [done|]. simpl. lia.
Qed.

Definition phased {A} (lo hi : nat) (m : M driver' event' A) : Prop :=
  ∀ s, within lo hi (m s).1.

Definition silent {A} (m : M driver' event' A) : Prop :=
  ∀ s, (m s).1 = [].

Lemma phased_silent_bind {A B} lo hi (m : M driver' event' A)
    (f : A → M driver' event' B) :
  silent m → (∀ x, phased lo hi (f x)) → phased lo hi (m ≫= f).
Proof.
  intros Hm Hf s. rewrite bind_run. specialize (Hm s).
  destruct (m s) as [t1 [[x s1]|e]]; simpl in *; subst.
  - apply Hf.
  - apply within_nil.
Qed.

Lemma phased_bind {A B} lo mid hi (m : M driver' event' A)
    (f : A → M driver' event' B) :
  (lo ≤ mid ≤ hi)%nat →
  phased lo mid m → (∀ x, phased mid hi (f x)) → phased lo hi (m ≫= f).
Proof.
  intros Hmid Hm Hf s. rewrite bind_run. specialize (Hm s).
  destruct (m s) as [t1 [[x s1]|e]]; simpl in *.
  - eapply within_app; [done..|apply Hf].
  - eapply within_weaken; [| |done]; lia.
Qed.

Lemma phased_emit lo hi e :
  (lo ≤ phase e ≤ hi)%nat → phased lo hi (emit e).
Proof. intros He s. by apply within_one. Qed.

Lemma phased_silent {A} lo hi (m : M driver' event' A) :
  silent m → phased lo hi m.
Proof. intros Hm s. rewrite Hm. apply within_nil. Qed.

Lemma silent_call {A} (f : World → World * A) :
  silent (call f : M driver' event' A).
Proof. intros s. unfold call. run_monad. by destruct (f (world s)). Qed.

Lemma silent_lift {A} (o : outcome A) : silent (lift o : M driver' event' A).
Proof. intros s. by destruct o. Qed.

Local Ltac phased_step :=
  match goal with
  | |- phased _ _ (gets _ ≫= _) => apply phased_silent_bind; [done|intros ?]
  | |- phased _ _ (modify _ ≫= _) => apply phased_silent_bind; [done|intros ?]
  | |- phased _ _ (call _ ≫= _) =>
      apply phased_silent_bind; [apply silent_call|intros ?]
  | |- phased _ _ (lift _ ≫= _) =>
      apply phased_silent_bind; [apply silent_lift|intros ?]
  | |- phased _ ?hi (emit ?e ≫= _) =>
      apply (phased_bind _ (phase e) hi);
      [simpl; lia|apply phased_emit; simpl; lia|intros ?]
  | |- phased _ _ (emit _) => apply phased_emit; simpl; lia
  | |- phased _ _ (modify _) => by apply phased_silent
  | |- phased _ _ (mret _) => by apply phased_silent
  | |- phased _ _ (lift _) => apply phased_silent, silent_lift
  | |- phased _ _ (match ?x with _ => _ end) => destruct x; simpl
  end.

Lemma phased_collect_and_update : phased 1 5 (collect_and_update c a).
Proof.
  unfold collect_and_update, for_range.
  apply (phased_bind _ 1 _); [lia| |intros _].
  - intros s. apply within_same.
    eapply Forall_impl; [apply (collect_loop_events 0 (num_steps a) s)|].
    by intros []. 
  - repeat phased_step.
Qed.

Lemma phased_save m dir name : phased 6 6 (save c m dir name).
Proof.
  intros s. rewrite save_run.
  destruct (torch_save c _ _ _); by apply within_one.
Qed.

Lemma phased_checkpoint num_updates j :
  phased 6 6 (checkpoint c a num_updates j).
Proof.
  intros s. rewrite checkpoint_run.
  generalize (checkpoint_state num_updates j s).
  induction (checkpoint_files num_updates j s) as [|f files IH]; simpl.
  - intros s1. apply within_nil.
  - apply (phased_bind 6 6 6); [lia|apply phased_save|done].
Qed.

Lemma phased_log_epoch start j losses :
  phased 7 7 (log_epoch c a start j losses).
Proof. unfold log_epoch. repeat phased_step. Qed.

Lemma phased_iteration num_updates start j :
  phased 0 7 (iteration c a num_updates start j).
Proof.
  unfold iteration.
  apply (phased_bind _ 0 _); [lia| |intros _].
  { intros s. rewrite push_lr_run. by apply within_one. }
  apply (phased_bind _ 5 _); [lia| |intros losses].
  { intros s. eapply within_weaken; [| |apply phased_collect_and_update]; lia. }
  apply (phased_bind _ 6 _); [lia| |intros _].
  { intros s. eapply within_weaken; [| |apply phased_checkpoint]; lia. }
  intros s. eapply within_weaken; [| |apply phased_log_epoch]; lia.
Qed.

(** C1.  The calls of an iteration never go back to an earlier phase,
    whether the iteration comes to its end or not.  An iteration that
    comes to its end has made, in this order, these calls and no other:
    the push of the learning rate; [num_steps] environment steps, each
    followed by its insert; the value bootstrap, [get_value] on the last
    slot of the storage filled by these inserts, then [compute_returns]
    on the value it returned; the PPO update on that storage;
    [after_update]; the checkpoint writes, which are the files of the
    window, the threshold and the best mean of that moment; the logging,
    which is one record when the window holds more than one reward and
    nothing otherwise. *)
Theorem iteration_phases_in_order num_updates start j s :
  ordered (iteration c a num_updates start j s).1 ∧
  ∀ s',
    (iteration c a num_updates start j s).2 = Ok (tt, s') →
    ∃ steps next_value losses w0 w w' s1 logs,
      let lr_set :=
        set_optimizer_lr c (actor_critic s) (scheduled_lr c a num_updates j) in
      let filled :=
        foldl (fun st x => rollouts_insert c st x.2) (rollouts s) steps in
      let with_returns :=
        rollouts_compute_returns c filled next_value
          (use_gae a) (gamma a) (gae_lambda a) in
      length steps = num_steps a ∧
      (iteration c a num_updates start j s).1
      = [EvSetLr (scheduled_lr c a num_updates j)]
        ++ concat (imap step_events steps)
        ++ [EvGetValue (rollouts_observations c filled (-1))
                       (rollouts_states c filled (-1))
                       (rollouts_masks c filled (-1));
            EvComputeReturns next_value (use_gae a) (gamma a) (gae_lambda a);
            EvUpdate losses.1.1 losses.1.2 losses.2;
            EvAfterUpdate]
        ++ map save_event (checkpoint_files num_updates j s1)
        ++ logs ∧
      get_value c w0 lr_set
                (rollouts_observations c filled (-1))
                (rollouts_states c filled (-1))
                (rollouts_masks c filled (-1)) = (w, next_value) ∧
      agent_update c w lr_set with_returns = (w', (actor_critic s', losses)) ∧
      rollouts s' = rollouts_after_update c with_returns ∧
      episode_rewards s1 = episode_rewards s' ∧
      next_checkpoint s1 = next_checkpoint s ∧
      max_ep_reward s1 = max_ep_reward s ∧
      logs_for start j losses (episode_rewards s') logs.
Proof.
  split; [apply phased_iteration|].
  destruct (iteration c a num_updates start j s) as [tr out] eqn:Hrun.
  simpl. intros s' ->. unfold iteration in Hrun.
  apply bind_ok in Hrun as (t0 & [] & s0 & t' & Hlr & Hrun & ->).
  rewrite push_lr_run in Hlr. injection Hlr as <- <-.
  apply bind_ok in Hrun as (t1 & losses & s1 & t'' & Hcu & Hrun & ->).
  apply bind_ok in Hrun as (t2 & [] & s2 & t3 & Hck & Hlog & ->).
  apply collect_and_update_bootstrap in Hcu
    as (steps & nv & w0 & w & w' & Hlen & -> & Hgv & Hup & Hr & Hn & Hb).
  rewrite checkpoint_run in Hck. apply save_all_ok in Hck as [-> Hs2].
  apply log_epoch_ok in Hlog as [Hlogs Hs'].
  assert (episode_rewards s' = episode_rewards s1) as Hwin.
  { rewrite Hs', Hs2. simpl. apply checkpoint_state_window. }
  assert (actor_critic s' = actor_critic s1) as Hm.
  { rewrite Hs', Hs2. simpl. apply checkpoint_state_model. }
  assert (rollouts s' = rollouts s1) as Hst.
  { rewrite Hs', Hs2. simpl. apply checkpoint_state_rollouts. }
  assert (episode_rewards s2 = episode_rewards s1) as Hwin2.
  { rewrite Hs2. simpl. apply checkpoint_state_window. }
  rewrite Hwin2, <-Hwin in Hlogs.
  exists steps, nv, losses, w0, w, w', s1, t3. simpl in *.
  rewrite Hm, Hst, <-!app_assoc. simpl.
  repeat split; try done.
Qed.

(** C8.  An iteration starts with the push of the learning rate of the
    decay policy at [j], and all the rest of the iteration runs with that
    rate in the optimizer: the rate is [linear_decay] down to 0 for
    ["linear"], [exponential_decay] with rate 0.99 down to the floor 3e-5
    for ["exponential"], and the configured [lr] for any other name. *)
Theorem scheduled_lr_pushed_first num_updates start j s :
  let x := scheduled_lr c a num_updates j in
  iteration c a num_updates start j s =
    (let '(rest, out) :=
       (losses ← collect_and_update c a;
        checkpoint c a num_updates j;;
        log_epoch c a start j losses)
         (set_actor_critic (set_optimizer_lr c (actor_critic s) x) s) in
     (EvSetLr x :: rest, out)) ∧
  x = (if decide (lr_decay_type a = "linear")
       then linear_decay c (Z.of_nat j) num_updates (lr a) 0
       else if decide (lr_decay_type a = "exponential")
       then exponential_decay c (Z.of_nat j) (99 # 100) (lr a) (3 # 100000)
       else lr a) ∧
  (0 < 3 # 100000)%Q.
Proof.
  split; [|split; [|done]].
  - unfold iteration. rewrite bind_run, push_lr_run. cbv beta iota.
    by destruct ((collect_and_update c a ≫= _) _).
  - unfold scheduled_lr.
    destruct (String.eqb_spec (lr_decay_type a) "linear");
      destruct (String.eqb_spec (lr_decay_type a) "exponential");
      repeat case_decide; congruence.
Qed.

(** ** What an iteration writes and logs (C5, C7) *)

(** The files written, as pairs of a directory and a name, and the
    records logged, in the order of the trace. *)
Definition saved tr : list (string * string) :=
  omap (fun e => match e with EvSave d n _ => Some (d, n) | _ => None end) tr.

Definition logged tr : list log_record :=
  omap (fun e => match e with EvLog r => Some r | _ => None end) tr.

Lemma omap_nil_Forall {A B} (f : A → option B) (l : list A) :
  Forall (fun x => f x = None) l → omap f l = [].
Proof. induction 1 as [|x l Hx _ IH]; simpl; [done|]. by rewrite Hx. Qed.

Lemma Forall_concat_imap {A B} (P : B → Prop) (l : list A) :
  ∀ g : nat → A → list B,
    (∀ k x, Forall P (g k x)) → Forall P (concat (imap g l)).
Proof.
  induction l as [|x l IH]; intros g Hg; simpl; [constructor|].
  apply Forall_app_2; [apply Hg|]. apply IH. intros k y. apply Hg.
Qed.

Lemma saved_steps steps : saved (concat (imap step_events steps)) = [].
Proof.
  apply omap_nil_Forall, Forall_concat_imap. intros k x.
  by repeat constructor.
Qed.

Lemma logged_steps steps : logged (concat (imap step_events steps)) = [].
Proof.
  apply omap_nil_Forall, Forall_concat_imap. intros k x.
  by repeat constructor.
Qed.

Lemma saved_save_events files : saved (map save_event files) = files.
Proof. induction files as [|[d n] files IH]; simpl; by f_equal. Qed.

Lemma logged_save_events files : logged (map save_event files) = [].
Proof. by induction files. Qed.

(** The files and the records of an iteration that comes to its end. *)
Lemma iteration_saved_logged num_updates start j s tr s' :
  iteration c a num_updates start j s = (tr, Ok (tt, s')) →
  ∃ s1 losses,
    In (EvUpdate losses.1.1 losses.1.2 losses.2) tr ∧
    saved tr = checkpoint_files num_updates j s1 ∧
    logs_for start j losses (episode_rewards s') (map EvLog (logged tr)) ∧
    episode_rewards s1 = episode_rewards s' ∧
    next_checkpoint s1 = next_checkpoint s ∧
    max_ep_reward s1 = max_ep_reward s ∧
    s' = set_world (world s') (checkpoint_state num_updates j s1).
Proof.
  intros (steps & nv & losses & s1 & w & w' & logs
          & Hlen & -> & Hlogs & Hup & Hr & Hn & Hb & Hs')%iteration_ok.
  assert (episode_rewards s' = episode_rewards s1) as Hwin.
  { rewrite Hs'. simpl. apply checkpoint_state_window. }
  assert (saved logs = [] ∧ map EvLog (logged logs) = logs) as [Hsl Hll].
  { unfold logs_for in Hlogs.
    destruct (1 <? length (episode_rewards s1))%nat.
    - by destruct Hlogs as (w0 & fps & _ & ->).
    - by subst logs. }
  exists s1, losses. split.
  { simpl. right. apply in_or_app. right. simpl. auto. }
  unfold saved, logged in *. rewrite !omap_app. simpl.
  fold (saved (concat (imap step_events steps))).
  fold (logged (concat (imap step_events steps))).
  rewrite saved_steps, logged_steps. simpl.
  fold (saved (map save_event (checkpoint_files num_updates j s1))).
  fold (logged (map save_event (checkpoint_files num_updates j s1))).
  rewrite saved_save_events, logged_save_events, Hsl, app_nil_r. simpl.
  rewrite Hll, Hwin. done.
Qed.

(** C7, as the code has it.  An iteration that comes to its end hands the
    logger no record when the reward window holds at most one reward, and
    exactly one record when it holds more: the record has the iteration
    number [j+1], the total step count [(j+1) * num_processes *
    num_steps], the frames per second computed from a clock reading, the
    entropy, value loss and action loss returned by the PPO update of the
    iteration, and the reward window. *)
Theorem one_record_when_window_has_two num_updates start j s tr s' :
  iteration c a num_updates start j s = (tr, Ok (tt, s')) →
  ((length (episode_rewards s') ≤ 1)%nat → logged tr = []) ∧
  ((1 < length (episode_rewards s'))%nat →
   ∃ value_loss action_loss dist_entropy w fps,
     In (EvUpdate value_loss action_loss dist_entropy) tr ∧
     truediv (inject_Z ((Z.of_nat j + 1) * Z.of_nat (num_processes a)
                        * Z.of_nat (num_steps a)))
             ((time_time c w).2 - start)%Q = Ok fps ∧
     logged tr =
       [ {| log_iter := Z.of_nat j + 1;
            log_total_num_steps :=
              (Z.of_nat j + 1) * Z.of_nat (num_processes a)
              * Z.of_nat (num_steps a);
            log_fps := int_of_float fps;
            log_entropy := dist_entropy;
            log_value_loss := value_loss;
            log_action_loss := action_loss;
            log_stats_rew := episode_rewards s' |} ]).
Proof.
  intros (s1 & [[vl al] ent] & Hin & _ & Hlogs & _)%iteration_saved_logged.
  unfold logs_for in Hlogs. split; intros Hlen.
  - apply Nat.ltb_ge in Hlen. rewrite Hlen in Hlogs.
    by destruct (logged tr).
  - apply Nat.ltb_lt in Hlen. rewrite Hlen in Hlogs.
    destruct Hlogs as (w & fps & Hdiv & Hrec).
    exists vl, al, ent, w, fps. split; [done|]. split; [done|].
    destruct (logged tr) as [|r [|r' l]]; simplify_eq/=. done.
Qed.

(** [m < x], with [float("-inf")] below every float. *)
Definition efloat_lt (m : efloat) (x : Q) : Prop :=
  match m with
  | NegInf => True
  | Fin y => (y < x)%Q
  end.

Lemma gt_efloat_spec x m : gt_efloat x m = true ↔ efloat_lt m x.
Proof.
  destruct m as [|y]; simpl; [done|].
  rewrite negb_true_iff, <-not_true_iff_false, Qle_bool_iff.
  split; [apply Qnot_le_lt|apply Qlt_not_le].
Qed.

Lemma improved_spec window best :
  improved window best = true ↔
  (1 < length window)%nat ∧ efloat_lt best (np_mean window).
Proof.
  unfold improved. by rewrite andb_true_iff, Nat.ltb_lt, gt_efloat_spec.
Qed.

(** The test of lines 255-257, as a proposition. *)
Definition due (num_updates : Z) (j : nat) (next : Q) : Prop :=
  ((next <= inject_Z (frame_count a j))%Q ∨ Z.of_nat j = (num_updates - 1)%Z)
  ∧ save_dir a ≠ "".

Lemma snapshot_due_spec num_updates j next :
  snapshot_due a num_updates j next = true ↔ due num_updates j next.
Proof.
  unfold snapshot_due, due.
  rewrite andb_true_iff, orb_true_iff, Qle_bool_iff, Z.eqb_eq,
    negb_true_iff.
  destruct (String.eqb_spec (save_dir a) ""); intuition congruence.
Qed.

Lemma in_checkpoint_files num_updates j s d n :
  (d, n) ∈ checkpoint_files num_updates j s ↔
  (d = drive_dir ∨ d = save_dir a) ∧
  (n = (if snapshot_due a num_updates j (next_checkpoint s)
        then model_name (env_name a)
               (Snapshot (int_of_float (next_checkpoint s)))
        else model_name (env_name a) Latest)
   ∨ improved (episode_rewards s) (max_ep_reward s) = true
     ∧ n = model_name (env_name a) Best).
Proof.
  unfold checkpoint_files.
  destruct (improved _ _); simpl;
    rewrite ?elem_of_cons, elem_of_nil; intuition congruence.
Qed.

(** C5, as the code has it.  An iteration that comes to its end writes,
    in the save directory, either the snapshot tagged with the integer
    part of [next_checkpoint] or the latest model, never both: the
    snapshot exactly when the save directory is not the empty string and
    the frame count [(j+1) * num_steps * num_processes] has reached
    [next_checkpoint] or the iteration is the last one, the latest model
    otherwise; [next_checkpoint] moves by [save_every] with each
    snapshot.  It writes the best model exactly when the reward window
    holds more than one reward and its mean is above the best mean
    tracked so far. *)
Theorem checkpoint_files_written num_updates start j s tr s' :
  iteration c a num_updates start j s = (tr, Ok (tt, s')) →
  let file t := (save_dir a, model_name (env_name a) t) in
  let snapshot_now := due num_updates j (next_checkpoint s) in
  (file Latest ∈ saved tr ↔ ¬ snapshot_now) ∧
  (snapshot_now →
   file (Snapshot (int_of_float (next_checkpoint s))) ∈ saved tr ∧
   next_checkpoint s' = (next_checkpoint s + save_every a)%Q) ∧
  (¬ snapshot_now →
   (∀ n, file (Snapshot n) ∉ saved tr) ∧
   next_checkpoint s' = next_checkpoint s) ∧
  (file Best ∈ saved tr ↔
   (1 < length (episode_rewards s'))%nat ∧
   efloat_lt (max_ep_reward s) (np_mean (episode_rewards s'))).
Proof.
  intros (s1 & losses & _ & Hsaved & _ & Hwin & Hn & Hb & Hs')
    %iteration_saved_logged.
  simpl. rewrite Hsaved, <-Hwin, <-Hb, <-Hn, <-improved_spec,
    <-snapshot_due_spec.
  assert (next_checkpoint s' =
          if snapshot_due a num_updates j (next_checkpoint s1)
          then (next_checkpoint s1 + save_every a)%Q
          else next_checkpoint s1) as ->.
  { rewrite Hs'. unfold checkpoint_state. simpl.
    by destruct (snapshot_due _ _ _ _), (improved _ _). }
  pose proof (model_name_latest_best (env_name a)) as Hlb.
  pose proof (model_name_snapshot (env_name a)) as Hsn.
  destruct (snapshot_due a num_updates j (next_checkpoint s1)) eqn:Hdue.
  - assert (∀ n,
      (save_dir a, n) ∈ checkpoint_files num_updates j s1 ↔
      n = model_name (env_name a)
            (Snapshot (int_of_float (next_checkpoint s1)))
      ∨ improved (episode_rewards s1) (max_ep_reward s1) = true
        ∧ n = model_name (env_name a) Best) as Hin.
    { intros n. rewrite in_checkpoint_files, Hdue. intuition. }
    split; [|split; [|split]].
    + rewrite Hin. split; [|done].
      intros [Hl|[_ Hl]]; [|done]. exfalso. eapply Hsn; [by left|done].
    + intros _. split; [|done]. apply Hin. by left.
    + done.
    + rewrite Hin. split; [|by right].
      intros [Hl|[Hi _]]; [|done]. exfalso. eapply Hsn; [by right|done].
  - assert (∀ n,
      (save_dir a, n) ∈ checkpoint_files num_updates j s1 ↔
      n = model_name (env_name a) Latest
      ∨ improved (episode_rewards s1) (max_ep_reward s1) = true
        ∧ n = model_name (env_name a) Best) as Hin.
    { intros n. rewrite in_checkpoint_files, Hdue. intuition. }
    split; [|split; [|split]].
    + rewrite Hin. split; [done|]. intros _. by left.
    + done.
    + intros _. split; [|done]. intros n. rewrite Hin.
      intros [Hl|[_ Hl]]; (eapply Hsn; [|done]); auto.
    + rewrite Hin. split; [|by right].
      intros [Hl|[Hi _]]; [|done]. by destruct Hlb.
Qed.

(** ** A write that fails (C6) *)

(** A failed write is the last call of the trace, and the trace ends with
    its exception. *)
Definition failed_write_is_last tr (r : option exn) : Prop :=
  ∀ t1 dir name t2,
    tr = t1 ++ EvSave dir name false :: t2 → t2 = [] ∧ r = Some OSError.

Lemma failed_write_is_last_nil r : failed_write_is_last [] r.
Proof. intros t1 dir name t2 H. by destruct t1. Qed.

Lemma failed_write_is_last_app t1 t2 r :
  failed_write_is_last t1 None → failed_write_is_last t2 r →
  failed_write_is_last (t1 ++ t2) r.
Proof.
  intros H1 H2 u1 dir name u2 Heq.
  apply app_eq_inv in Heq as [[k [-> Hk]]|[k [-> Hk]]].
  - destruct k as [|e k]; simpl in Hk.
    + rewrite app_nil_r in *. by eapply H2 with (t1 := []).
    + injection Hk as <- ->.
      by destruct (H1 u1 dir name k) as [_ ?].
  - by eapply H2.
Qed.

Lemma failed_write_is_last_one e r :
  (∀ dir name, e ≠ EvSave dir name false) → failed_write_is_last [e] r.
Proof.
  intros He t1 dir name t2 Heq.
  destruct t1 as [|x [|y t1]]; simplify_eq/=. by destruct (He dir name).
Qed.

Lemma train_failed_write : emits failed_write_is_last (train c a).
Proof.
  apply emits_train.
  - apply failed_write_is_last_nil.
  - apply failed_write_is_last_app.
  - intros e _ He. apply failed_write_is_last_one. by intros dir name ->.
  - intros step s. rewrite collect_step_run.
    destruct (act c _ _ _ _ _) as [w1 [[[value action] lp] states]].
    destruct (envs_step c w1 action) as [w2 [[[obs reward] done] infos]].
    destruct (scan_infos _ _ _ _ _) as [[bm win]|e]; simpl;
      intros t1 dir name t2 Heq;
      destruct t1 as [|x [|y [|z t1]]]; simplify_eq/=; by destruct t1.
  - intros m dir name s. rewrite save_run.
    destruct (torch_save c _ _ _); simpl.
    + by apply failed_write_is_last_one.
    + intros t1 d n t2 Heq. by destruct t1 as [|x [|y t1]]; simplify_eq/=.
Qed.

(** What the code does of a failed write, in every run: the call that
    failed is the last call of the run, nothing is logged after it and no
    later iteration starts, and the run ends with the exception of the
    write.  Nothing catches it, where lines 112-115 of the same function
    catch the [OSError] of [os.makedirs] on [save_dir] and carry on. *)
Theorem failed_write_ends_run w m r o t1 dir name t2 :
  (main c a w m r o).1 = t1 ++ EvSave dir name false :: t2 →
  t2 = [] ∧ (main c a w m r o).2 = Raise OSError.
Proof.
  intros Heq. unfold main in *.
  destruct (train_failed_write (Driver w m r o [] (save_every a) NegInf)
              t1 dir name t2 Heq) as [-> Hst].
  split; [done|]. by destruct (train c a _).2 as [|e]; simplify_eq/=.
Qed.

(** ** The best model (C10) *)

Lemma saved_save_all m files :
  ∀ s, ∃ k, saved (save_all m files s).1 = take k files.
Proof.
  induction files as [|[d n] files IH]; intros s; [by exists 0%nat|].
  simpl. rewrite bind_run, save_run.
  destruct (torch_save c _ _ _) as [w'|]; simpl.
  - destruct (IH (set_world w' s)) as [k Hk]. exists (S k). simpl.
    f_equal. exact Hk.
  - by exists 1%nat.
Qed.

(** Whatever becomes of the checkpoint phase, the best model is written
    only on an improvement. *)
Lemma checkpoint_best num_updates j s d :
  (d, model_name (env_name a) Best) ∈ saved (checkpoint c a num_updates j s).1 →
  improved (episode_rewards s) (max_ep_reward s) = true.
Proof.
  rewrite checkpoint_run.
  destruct (saved_save_all
              (if cuda a then cpu_copy c (actor_critic s) else actor_critic s)
              (checkpoint_files num_updates j s)
              (checkpoint_state num_updates j s)) as [k ->].
  intros (i & Hi%list_elem_of_lookup_2 & _)%elem_of_take.
  apply in_checkpoint_files in Hi as [_ [Hn|[Hi _]]]; [|done].
  exfalso. destruct (snapshot_due _ _ _ _).
  - eapply model_name_snapshot; [by right|done].
  - by eapply model_name_latest_best.
Qed.

(** In an iteration that comes to its end, a write of the best model
    sets the best mean to the mean of the window, which was above it;
    without such a write the best mean stays. *)
Lemma iteration_best num_updates start j s tr s' :
  iteration c a num_updates start j s = (tr, Ok (tt, s')) →
  let best := (save_dir a, model_name (env_name a) Best) in
  (best ∈ saved tr →
   (1 < length (episode_rewards s'))%nat ∧
   efloat_lt (max_ep_reward s) (np_mean (episode_rewards s')) ∧
   max_ep_reward s' = Fin (np_mean (episode_rewards s'))) ∧
  (best ∉ saved tr → max_ep_reward s' = max_ep_reward s).
Proof.
  intros (s1 & losses & _ & Hsaved & _ & Hwin & Hn & Hb & Hs')
    %iteration_saved_logged.
  simpl. rewrite Hsaved, <-Hwin, <-Hb.
  assert (max_ep_reward s' =
          if improved (episode_rewards s1) (max_ep_reward s1)
          then Fin (np_mean (episode_rewards s1))
          else max_ep_reward s1) as ->.
  { rewrite Hs'. unfold checkpoint_state. simpl.
    by destruct (snapshot_due _ _ _ _), (improved _ _). }
  rewrite in_checkpoint_files.
  destruct (improved (episode_rewards s1) (max_ep_reward s1)) eqn:Himp.
  - apply improved_spec in Himp as [Hlen Hlt]. split; [done|].
    intros Hnot. destruct Hnot. split; [by right|]. by right.
  - split; [|done]. intros [_ [Hname|[? _]]]; [|done]. exfalso.
    destruct (snapshot_due _ _ _ _).
    + eapply model_name_snapshot; [by right|done].
    + by eapply model_name_latest_best.
Qed.

(** The best mean never goes down. *)
Lemma iteration_best_mono num_updates start j s tr s' x :
  iteration c a num_updates start j s = (tr, Ok (tt, s')) →
  efloat_lt (max_ep_reward s') x → efloat_lt (max_ep_reward s) x.
Proof.
  intros Hrun.
  destruct (iteration_best _ _ _ _ _ _ Hrun) as [Hb Hnb].
  destruct (decide ((save_dir a, model_name (env_name a) Best) ∈ saved tr))
    as [Hin|Hin].
  - destruct (Hb Hin) as (_ & Hlt & ->). simpl. intros Hx.
    destruct (max_ep_reward s); simpl in *; [done|].
    by apply Qlt_trans with (np_mean (episode_rewards s')).
  - by rewrite (Hnb Hin).
Qed.

(** Iterations in a row, from iteration [j] in state [s]: each comes to
    its end with the trace and in the state listed for it. *)
Fixpoint chain (num_updates : Z) (start : Q) (j : nat) s
    (hist : list (list event' * driver')) : Prop :=
  match hist with
  | [] => True
  | (tr, s') :: rest =>
      iteration c a num_updates start j s = (tr, Ok (tt, s')) ∧
      chain num_updates start (S j) s' rest
  end.

Lemma chain_drop num_updates start hist :
  ∀ j s i ti si,
    chain num_updates start j s hist → hist !! i = Some (ti, si) →
    chain num_updates start (S (j + i)) si (drop (S i) hist).
Proof.
  induction hist as [|[t1 s1] hist IH]; intros j s i ti si Hc Hi; [done|].
  destruct Hc as [Hrun Hc]. destruct i as [|i]; simpl in *.
  - injection Hi as <- <-. by rewrite Nat.add_0_r.
  - rewrite Nat.add_succ_r. by eapply (IH (S j)).
Qed.

Lemma chain_best num_updates start hist :
  ∀ j s k tk sk,
    chain num_updates start j s hist → hist !! k = Some (tk, sk) →
    (save_dir a, model_name (env_name a) Best) ∈ saved tk →
    (1 < length (episode_rewards sk))%nat ∧
    efloat_lt (max_ep_reward s) (np_mean (episode_rewards sk)) ∧
    max_ep_reward sk = Fin (np_mean (episode_rewards sk)).
Proof.
  induction hist as [|[t1 s1] hist IH]; intros j s k tk sk Hc Hk Hin; [done|].
  destruct Hc as [Hrun Hc]. destruct k as [|k]; simpl in *.
  - injection Hk as <- <-.
    by destruct (iteration_best _ _ _ _ _ _ Hrun) as [Hb _]; apply Hb.
  - destruct (IH _ _ _ _ _ Hc Hk Hin) as (Hlen & Hlt & Hmax).
    split; [done|]. split; [|done]. by eapply iteration_best_mono.
Qed.

(** C10.  Whatever becomes of the checkpoint phase, the best model is
    written in it only when the reward window holds more than one reward
    and its mean is above the best mean tracked so far.  Hence, among
    iterations in a row that come to their end, two that write the best
    model have each set the tracked best mean to the mean of their
    window, and the later of the two has the greater mean. *)
Theorem best_mean_strictly_increases num_updates start j s hist :
  let best := (save_dir a, model_name (env_name a) Best) in
  (∀ s0,
     best ∈ saved (checkpoint c a num_updates j s0).1 →
     (1 < length (episode_rewards s0))%nat ∧
     efloat_lt (max_ep_reward s0) (np_mean (episode_rewards s0))) ∧
  (chain num_updates start j s hist →
   ∀ i k ti si tk sk,
     (i < k)%nat →
     hist !! i = Some (ti, si) → hist !! k = Some (tk, sk) →
     best ∈ saved ti → best ∈ saved tk →
     max_ep_reward si = Fin (np_mean (episode_rewards si)) ∧
     max_ep_reward sk = Fin (np_mean (episode_rewards sk)) ∧
     (1 < length (episode_rewards si))%nat ∧
     (1 < length (episode_rewards sk))%nat ∧
     (np_mean (episode_rewards si) < np_mean (episode_rewards sk))%Q).
Proof.
  simpl. split.
  - intros s0 Hin%checkpoint_best. by apply improved_spec.
  - intros Hc i k ti si tk sk Hik Hi Hk Hbi Hbk.
    destruct (chain_best _ _ _ _ _ _ _ _ Hc Hi Hbi) as (Hli & _ & Hmi).
    destruct (chain_best _ _ _ _ _ _ _ _ Hc Hk Hbk) as (Hlk & _ & Hmk).
    pose proof (chain_drop _ _ _ _ _ _ _ _ Hc Hi) as Hc'.
    assert (drop (S i) hist !! (k - S i)%nat = Some (tk, sk)) as Hk'.
    { rewrite lookup_drop. by replace (S i + (k - S i))%nat with k by lia. }
    destruct (chain_best _ _ _ _ _ _ _ _ Hc' Hk' Hbk) as (_ & Hlt & _).
    rewrite Hmi in Hlt. done.
Qed.

(** ** The length of the run (C4) *)

(** The learning rates pushed, one per iteration started. *)
Definition learning_rates tr : list Q :=
  omap (fun e => match e with EvSetLr x => Some x | _ => None end) tr.

Lemma learning_rates_app t1 t2 :
  learning_rates (t1 ++ t2) = learning_rates t1 ++ learning_rates t2.
Proof. apply omap_app. Qed.

Lemma iteration_learning_rates num_updates start j s tr s' :
  iteration c a num_updates start j s = (tr, Ok (tt, s')) →
  learning_rates tr = [scheduled_lr c a num_updates j].
Proof.
  intros (steps & nv & losses & s1 & w & w' & logs
          & Hlen & -> & Hlogs & _)%iteration_ok.
  rewrite !learning_rates_app. simpl.
  assert (learning_rates logs = []) as ->.
  { unfold logs_for in Hlogs.
    destruct (1 <? length (episode_rewards s1))%nat.
    - by destruct Hlogs as (w0 & fps & _ & ->).
    - by subst logs. }
  assert (learning_rates (concat (imap step_events steps)) = []) as ->.
  { apply omap_nil_Forall, Forall_concat_imap. intros k x.
    by repeat constructor. }
  assert (∀ files, learning_rates (map save_event files) = []) as ->;
    [|done].
  by induction files.
Qed.

(** A loop that comes to its end is a chain of as many iterations. *)
Lemma loop_ok_chain num_updates start n :
  ∀ j s tr s',
    for_from j n (iteration c a num_updates start) s = (tr, Ok (tt, s')) →
    ∃ hist,
      length hist = n ∧ chain num_updates start j s hist ∧
      tr = concat hist.*1 ∧
      length (learning_rates tr) = n.
Proof.
  induction n as [|n IH]; intros j s tr s' Hrun.
  - injection Hrun as <- <-. by exists [].
  - rewrite for_from_S in Hrun.
    apply bind_ok in Hrun as (t1 & [] & s1 & t2 & Hit & Hrest & ->).
    apply IH in Hrest as (hist & Hlen & Hc & -> & Hlr).
    exists ((t1, s1) :: hist). simpl. rewrite Hlen.
    split; [done|]. split; [done|]. split; [done|].
    rewrite learning_rates_app, length_app, Hlr.
    by rewrite (iteration_learning_rates _ _ _ _ _ _ Hit).
Qed.

Lemma Qfloor_div_pos (x : Q) (p : positive) :
  Qfloor (x / inject_Z (Z.pos p)) = (Qfloor x / Z.pos p)%Z.
Proof.
  destruct x as [n d]. unfold Qdiv, Qmult, Qinv, Qfloor. simpl.
  rewrite Z.mul_1_r, Pos2Z.inj_mul. symmetry. apply Z.div_div; lia.
Qed.

(** [int(x) // n // p] is [x / n / p] rounded down, for a frame budget
    that is not negative and two positive counts. *)
Lemma num_updates_floor (x : Q) (n p : nat) :
  (0 <= x)%Q → (0 < n)%nat → (0 < p)%nat →
  floordiv (int_of_float x) (Z.of_nat n) ≫= (fun y => floordiv y (Z.of_nat p))
  = Ok (Qfloor (x / inject_Z (Z.of_nat n) / inject_Z (Z.of_nat p))).
Proof.
  intros Hx Hn Hp. unfold int_of_float, floordiv.
  apply Qle_bool_iff in Hx as ->.
  destruct (Z.of_nat n) as [|n'|] eqn:Hn'; [lia| |lia].
  destruct (Z.of_nat p) as [|p'|] eqn:Hp'; [lia| |lia].
  unfold mbind, outcome_bind. cbn [Z.eqb].
  by rewrite !Qfloor_div_pos.
Qed.

Lemma num_updates_nonneg (x : Q) (n p : nat) :
  (0 <= x)%Q → (0 < n)%nat → (0 < p)%nat →
  (0 ≤ Qfloor (x / inject_Z (Z.of_nat n) / inject_Z (Z.of_nat p)))%Z.
Proof.
  intros Hx Hn Hp. rewrite <-(Qfloor_Z 0) at 1. apply Qfloor_resp_le.
  assert (0 < inject_Z (Z.of_nat n))%Q by (unfold Qlt; simpl; lia).
  assert (0 < inject_Z (Z.of_nat p))%Q by (unfold Qlt; simpl; lia).
  apply Qle_shift_div_l; [done|]. apply Qle_shift_div_l; [done|].
  by rewrite !Qmult_0_l.
Qed.

Section Progress.
(** The collaborators that let the run come to its end: the
    environment returns at most one info dict per process, with an
    episode summary that has its reward when it has one; a write
    succeeds, and once it is done the clock no longer reads [start]. *)
Variable start : Q.
Hypothesis env_ok :
  ∀ w action,
    let infos := (envs_step c w action).2.2 in
    (length infos ≤ num_processes a)%nat ∧
    Forall (fun i => has_key "episode" i = true →
                     ∃ r, episode_r i = Ok r) infos.
Hypothesis save_ok :
  ∀ w m p,
    ∃ w', torch_save c w m p = Some w' ∧
          ¬ ((time_time c w').2 == start)%Q.

Lemma scan_infos_total maxlen infos :
  ∀ k bm er,
    (k + length infos ≤ length bm)%nat →
    Forall (fun i => has_key "episode" i = true →
                     ∃ r, episode_r i = Ok r) infos →
    ∃ res, scan_infos maxlen k infos bm er = Ok res.
Proof.
  induction infos as [|i infos IH]; intros k bm er Hlen Hwf; [by eexists|].
  apply Forall_cons in Hwf as [Hi Hwf]. cbn [scan_infos]. simpl in Hlen.
  assert (∃ bm1, (if has_key "bad_transition" i
                  then set_zero k bm else Ok bm) = Ok bm1
                 ∧ length bm1 = length bm) as (bm1 & -> & Hbm1).
  { destruct (has_key "bad_transition" i); [|by eexists].
    unfold set_zero. rewrite decide_True by lia.
    eexists. split; [done|]. by rewrite length_insert. }
  cbn.
  assert (∃ er1, (if has_key "episode" i
                  then r ← episode_r i; Ok (deque_append maxlen r er)
                  else Ok er) = Ok er1) as (er1 & ->).
  { destruct (has_key "episode" i); [|by eexists].
    destruct Hi as [r ->]; [done|]. by eexists. }
  cbn. apply IH; [lia|done].
Qed.

Lemma collect_step_progress step s :
  ∃ tr s', collect_step c a step s = (tr, Ok (tt, s')).
Proof using env_ok.
  rewrite collect_step_run.
  destruct (act c _ _ _ _ _) as [w1 [[[value action] lp] states]].
  pose proof (env_ok w1 action) as Henv.
  destruct (envs_step c w1 action) as [w2 [[[obs reward] done] infos]].
  simpl in Henv. destruct Henv as [Hlen Hwf].
  destruct (scan_infos_total (num_processes a) infos 0
              (np_ones (num_processes a)) (episode_rewards s))
    as [[bm win] ->]; [|done|by eexists _, _].
  unfold np_ones. rewrite length_replicate. lia.
Qed.

Lemma collect_loop_progress n :
  ∀ lo s, ∃ tr s', for_from lo n (collect_step c a) s = (tr, Ok (tt, s')).
Proof using env_ok.
  induction n as [|n IH]; intros lo s; [by eexists _, _|].
  rewrite for_from_S, bind_run.
  destruct (collect_step_progress lo s) as (t1 & s1 & ->).
  destruct (IH (S lo) s1) as (t2 & s2 & ->). by eexists _, _.
Qed.

Lemma collect_and_update_progress s :
  ∃ tr losses s', collect_and_update c a s = (tr, Ok (losses, s')).
Proof using env_ok.
  unfold collect_and_update, for_range. rewrite bind_run.
  destruct (collect_loop_progress (num_steps a) 0 s) as (t1 & s1 & ->).
  run_monad.
  destruct (get_value c _ _ _ _ _) as [w1 nv]. simpl.
  destruct (agent_update c _ _ _) as [w2 [m [[vl al] ent]]]. simpl.
  by eexists _, _, _.
Qed.

Lemma save_all_progress m files :
  ∀ s,
    (files ≠ [] ∨ ¬ ((time_time c (world s)).2 == start)%Q) →
    ∃ tr s',
      save_all m files s = (tr, Ok (tt, s')) ∧
      ¬ ((time_time c (world s')).2 == start)%Q.
Proof using save_ok.
  induction files as [|f files IH]; intros s Hs.
  - destruct Hs as [?|Hs]; [done|]. by exists [], s.
  - simpl. rewrite bind_run, save_run.
    destruct (save_ok (world s) m (os_path_join f.1 f.2))
      as (w' & -> & Hclock).
    destruct (IH (set_world w' s)) as (t2 & s2 & -> & Hs2); [by right|].
    by eexists _, _.
Qed.

Lemma log_epoch_progress j losses s :
  ¬ ((time_time c (world s)).2 == start)%Q →
  ∃ tr s', log_epoch c a start j losses s = (tr, Ok (tt, s')).
Proof.
  intros Hclock. rewrite log_epoch_run.
  destruct (1 <? length (episode_rewards s))%nat; [|by eexists _, _].
  destruct (time_time c (world s)) as [w' end_]. simpl in *.
  unfold truediv.
  destruct (Qeq_bool (end_ - start) 0) eqn:Hz; [|by eexists _, _].
  apply Qeq_bool_iff in Hz. destruct Hclock. lra.
Qed.

Lemma iteration_progress num_updates j s :
  ∃ tr s', iteration c a num_updates start j s = (tr, Ok (tt, s')).
Proof using env_ok save_ok.
  unfold iteration. rewrite bind_run, push_lr_run. cbv beta iota.
  rewrite bind_run.
  destruct (collect_and_update_progress (set_actor_critic
              (set_optimizer_lr c (actor_critic s)
                 (scheduled_lr c a num_updates j)) s))
    as (t1 & losses & s1 & ->).
  cbv beta iota. rewrite bind_run, checkpoint_run.
  destruct (save_all_progress
              (if cuda a then cpu_copy c (actor_critic s1)
               else actor_critic s1)
              (checkpoint_files num_updates j s1)
              (checkpoint_state num_updates j s1))
    as (t2 & s2 & -> & Hclock); [by left|].
  cbv beta iota.
  destruct (log_epoch_progress j losses s2 Hclock) as (t3 & s3 & ->).
  by eexists _, _.
Qed.

Lemma loop_progress num_updates n :
  ∀ j s,
    ∃ tr s',
      for_from j n (iteration c a num_updates start) s = (tr, Ok (tt, s')).
Proof using env_ok save_ok.
  induction n as [|n IH]; intros j s; [by eexists _, _|].
  rewrite for_from_S, bind_run.
  destruct (iteration_progress num_updates j s) as (t1 & s1 & ->).
  destruct (IH (S j) s1) as (t2 & s2 & ->). by eexists _, _.
Qed.
End Progress.

(** What [train] does before the loop, spelled out. *)
Lemma train_run s :
  train c a s =
  match floordiv (int_of_float (num_frames a)) (Z.of_nat (num_steps a))
        ≫= (fun n => floordiv n (Z.of_nat (num_processes a))) with
  | Ok num_updates =>
      let '(w', start) := time_time c (world s) in
      for_range (Z.to_nat num_updates) (iteration c a num_updates start)
        (Driver w' (actor_critic s) (rollouts s) (current_obs s) []
                (save_every a) NegInf)
  | Raise e => ([], Raise e)
  end.
Proof.
  unfold train. run_monad.
  destruct (floordiv (int_of_float _) _) as [n|]; [|done]. simpl.
  destruct (floordiv n _) as [nu|]; [|done]. simpl.
  destruct (time_time c (world s)) as [w' start]. simpl.
  by destruct (for_range _ _ _).
Qed.

(** C4.  With a frame budget that is not negative, positive [num_steps]
    and [num_processes], and collaborators that do not fail (an
    environment that returns at most one info dict per process, episode
    summaries that hold their reward, writes that succeed, and a clock
    that has moved on from the start of the run once a file is written),
    the run comes to its end normally, and it is made of iterations
    [0], [1], ... in a row, each pushing one learning rate: as many as
    [num_frames / num_steps / num_processes] rounded down. *)
Theorem run_makes_num_updates_iterations w m r o :
  (0 <= num_frames a)%Q →
  (0 < num_steps a)%nat →
  (0 < num_processes a)%nat →
  (∀ w1 action,
     let infos := (envs_step c w1 action).2.2 in
     (length infos ≤ num_processes a)%nat ∧
     Forall (fun i => has_key "episode" i = true →
                      ∃ rew, episode_r i = Ok rew) infos) →
  (∀ w1 m1 p,
     ∃ w', torch_save c w1 m1 p = Some w' ∧
           ¬ ((time_time c w').2 == (time_time c w).2)%Q) →
  let num_updates :=
    Qfloor (num_frames a / inject_Z (Z.of_nat (num_steps a))
            / inject_Z (Z.of_nat (num_processes a))) in
  ∃ tr s' s0 hist,
    main c a w m r o = (tr, Ok (tt, s')) ∧
    chain num_updates (time_time c w).2 0 s0 hist ∧
    tr = concat hist.*1 ∧
    Z.of_nat (length hist) = num_updates ∧
    Z.of_nat (length (learning_rates tr)) = num_updates.
Proof.
  intros Hf Hs Hp Henv Hsave num_updates.
  pose proof (num_updates_nonneg _ _ _ Hf Hs Hp) as Hnn.
  fold num_updates in Hnn.
  unfold main. rewrite train_run, num_updates_floor by done.
  fold num_updates. cbv beta iota. cbn [world].
  destruct (time_time c w) as [w0 start] eqn:Htime. cbn [snd] in *.
  unfold for_range.
  destruct (loop_progress start Henv Hsave num_updates
              (Z.to_nat num_updates) 0
              (Driver w0 m r o [] (save_every a) NegInf))
    as (tr & s' & Hrun).
  cbn [actor_critic rollouts current_obs]. rewrite Hrun.
  apply loop_ok_chain in Hrun as (hist & Hlen & Hc & -> & Hlr).
  exists (concat hist.*1), s', (Driver w0 m r o [] (save_every a) NegInf), hist.
  rewrite Hlen, Hlr. repeat split; try done; lia.
Qed.

End DriverFacts.

(** ** The N-step return of the storage (C9) *)

Section Returns.
Context {Obs HState Action LogProb : Type}.
Import RolloutStorage.
Abbreviation storage := (RolloutStorage.t Obs HState Action LogProb).
Local Open Scope Q_scope.

Lemma sum_upto_ext (f g : nat → Q) (n : nat) :
  (∀ k, (k < n)%nat → f k == g k) → sum_upto f n == sum_upto g n.
Proof.
  induction n as [|n IH]; intros Hfg; simpl; [reflexivity|].
  apply Qplus_comp; [apply IH; intros; apply Hfg; lia|apply Hfg; lia].
Qed.

Lemma sum_upto_shift (f : nat → Q) (n : nat) :
  sum_upto f (S n) == f 0%nat + sum_upto (fun k => f (S k)) n.
Proof.
  induction n as [|n IH]; [simpl; ring|].
  change (sum_upto f (S (S n))) with (sum_upto f (S n) + f (S n)).
  rewrite IH. simpl. ring.
Qed.

Lemma sum_upto_scale (x : Q) (f : nat → Q) (n : nat) :
  sum_upto (fun k => x * f k) n == x * sum_upto f n.
Proof. induction n as [|n IH]; simpl; [ring|]. rewrite IH. ring. Qed.

(** The discounted return obeys the recursion of the storage. *)
Lemma discounted_return_step (gamma : Q) (reward : nat → Q) (b : Q)
    (T i : nat) :
  (i < T)%nat →
  discounted_return gamma reward b T i
  == discounted_return gamma reward b T (S i) * gamma * 1 + reward i.
Proof.
  intros Hi. unfold discounted_return.
  replace (T - i)%nat with (S (T - S i)) by lia.
  rewrite sum_upto_shift. simpl pow.
  rewrite (sum_upto_ext _ (fun k => gamma * (pow gamma k * reward (S i + k)%nat))).
  - rewrite sum_upto_scale, Nat.add_0_r. ring.
  - intros k _. replace (i + S k)%nat with (S i + k)%nat by lia. ring.
Qed.

Lemma discounted_return_end (gamma : Q) (reward : nat → Q) (b : Q) (T : nat) :
  discounted_return gamma reward b T T == b.
Proof. unfold discounted_return. rewrite Nat.sub_diag. simpl. ring. Qed.

Section Recursion.
Variables (s : storage) (bootstrap : list Q) (gamma : Q) (N : nat).
Let T := horizon s.
Hypothesis returns_shape : length (returns s) = S T.
Hypothesis rewards_shape : Forall (fun row => length row = N) (rewards s).
Hypothesis masks_shape : length (masks s) = S T.
Hypothesis masks_ones :
  Forall (fun row => length row = N ∧ Forall (fun x => x == 1) row)
         (masks s).
Hypothesis bootstrap_shape : length bootstrap = N.

(** The reward of process [p] at step [k]. *)
Definition reward_of (p k : nat) : Q := nth p (nth k (rewards s) []) 0.

(** Slot [i] of the returns holds, for every process, the discounted
    return at [i]. *)
Definition slot_ok (rets : list (list Q)) (i : nat) : Prop :=
  ∃ row,
    rets !! i = Some row ∧ length row = N ∧
    ∀ p, (p < N)%nat →
      ∃ x, row !! p = Some x ∧
           x == discounted_return gamma (reward_of p) (nth p bootstrap 0) T i.

Lemma nstep_invariant (m : nat) :
  ∀ j, (j + m)%nat = T →
    let rets := foldl (nstep_at gamma s)
                      (<[T := bootstrap]> (returns s)) (rev (seq j m)) in
    length rets = S T ∧ ∀ i, (j ≤ i ≤ T)%nat → slot_ok rets i.
Proof using returns_shape rewards_shape masks_shape masks_ones
            bootstrap_shape.
  induction m as [|m IH]; intros j Hj; simpl.
  - rewrite length_insert. split; [done|]. intros i Hi.
    assert (i = T) as -> by lia. exists bootstrap.
    split; [apply list_lookup_insert_eq; lia|]. split; [done|].
    intros p Hp. destruct (lookup_lt_is_Some_2 bootstrap p) as [x Hx];
      [lia|].
    exists x. split; [done|]. rewrite discounted_return_end.
    by rewrite (nth_lookup_Some _ _ _ _ Hx).
  - rewrite foldl_app. simpl.
    destruct (IH (S j)) as [Hlen Hslots]; [lia|].
    set (rets := foldl (nstep_at gamma s)
                       (<[T := bootstrap]> (returns s))
                       (rev (seq (S j) m))) in *.
    unfold nstep_at. rewrite length_insert. split; [done|].
    intros i Hi. destruct (decide (i = j)) as [->|Hne].
    + destruct (Hslots (S j)) as (next & Hnext & Hnlen & Hnext_ok); [lia|].
      destruct (lookup_lt_is_Some_2 (masks s) (S j)) as [mask Hmask];
        [lia|].
      destruct (lookup_lt_is_Some_2 (rewards s) j) as [rew Hrew];
        [fold (horizon s); fold T; lia|].
      rewrite (list_lookup_total_correct _ _ _ Hnext),
        (list_lookup_total_correct _ _ _ Hmask),
        (list_lookup_total_correct _ _ _ Hrew).
      rewrite Forall_lookup in masks_ones.
      destruct (masks_ones _ _ Hmask) as [Hmlen Hmones].
      rewrite Forall_lookup in rewards_shape.
      pose proof (rewards_shape _ _ Hrew) as Hrlen.
      eexists. split; [apply list_lookup_insert_eq; lia|].
      split.
      { unfold vadd, vmul, vscale.
        rewrite !length_zip_with, length_map. lia. }
      intros p Hp.
      destruct (Hnext_ok p Hp) as (x & Hx & Hxeq).
      destruct (lookup_lt_is_Some_2 mask p) as [mk Hmk]; [lia|].
      destruct (lookup_lt_is_Some_2 rew p) as [rw Hrw]; [lia|].
      exists (gamma * x * mk + rw). split.
      { unfold vadd, vmul, vscale.
        rewrite !lookup_zip_with, list_lookup_fmap, Hx, Hmk, Hrw. done. }
      rewrite discounted_return_step by lia.
      rewrite Forall_lookup in Hmones. rewrite (Hmones _ _ Hmk), Hxeq.
      unfold reward_of.
      rewrite (nth_lookup_Some _ _ _ _ Hrew), (nth_lookup_Some _ _ _ _ Hrw).
      ring.
    + unfold slot_ok. rewrite list_lookup_insert_ne by done.
      apply Hslots. lia.
Qed.
End Recursion.

(** C9.  For a storage of horizon [T] over [N] processes whose masks are
    all one, [compute_returns] without GAE leaves in slot [t] of the
    returns, for every [t < T] and every process [p], the exact N-step
    discounted return: the sum over [k = 0 .. T-1-t] of
    [gamma^k * reward[t+k]], plus [gamma^(T-t)] times the bootstrap
    value. *)
Theorem compute_returns_is_discounted_return
    (s : storage) (bootstrap : list Q) (gamma lam : Q) (N t p : nat) :
  length (returns s) = S (horizon s) →
  length (masks s) = S (horizon s) →
  Forall (fun row => length row = N) (rewards s) →
  Forall (fun row => length row = N ∧ Forall (fun x => x == 1) row)
         (masks s) →
  length bootstrap = N →
  (t < horizon s)%nat → (p < N)%nat →
  ∃ row x,
    returns (compute_returns s bootstrap false gamma lam) !! t = Some row ∧
    row !! p = Some x ∧
    x == sum_upto (fun k => pow gamma k
                            * nth p (nth (t + k) (rewards s) []) 0)
                  (horizon s - t)
         + pow gamma (horizon s - t) * nth p bootstrap 0.
Proof.
  intros Hret Hmask Hrew Hones Hboot Ht Hp.
  destruct (nstep_invariant s bootstrap gamma N Hret Hrew Hmask Hones Hboot
              (horizon s) 0 eq_refl) as [_ Hslots].
  destruct (Hslots t) as (row & Hrow & _ & Hok); [lia|].
  destruct (Hok p Hp) as (x & Hx & Hxeq).
  exists row, x. split; [exact Hrow|]. split; [exact Hx|]. exact Hxeq.
Qed.
End Returns.

(** * Further properties of the driver *)

(** ** The reward window *)

(** The [n] last elements of a list. *)
Definition last_n {A} (n : nat) (l : list A) : list A :=
  drop (length l - n) l.

Lemma last_n_length {A} (n : nat) (l : list A) :
  (length (last_n n l) ≤ n)%nat.
Proof. unfold last_n. rewrite length_drop. lia. Qed.

Lemma last_n_all {A} (n : nat) (l : list A) :
  (length l ≤ n)%nat → last_n n l = l.
Proof. intros Hl. unfold last_n. by replace (length l - n)%nat with 0%nat by lia. Qed.

Lemma deque_append_last_n (n : nat) (x : Q) (d : list Q) :
  deque_append n x d = last_n n (d ++ [x]).
Proof. reflexivity. Qed.

(** Pushing on a window that was itself cut to [n] elements. *)
Lemma last_n_snoc {A} (n : nat) (l : list A) (x : A) :
  last_n n (last_n n l ++ [x]) = last_n n (l ++ [x]).
Proof.
  destruct (decide (length l ≤ n)%nat) as [Hl|Hl].
  - by rewrite (last_n_all n l).
  - unfold last_n. destruct n as [|n].
    + by rewrite !Nat.sub_0_r, !drop_all.
    + rewrite !length_app, length_drop. simpl.
      replace (length l - (length l - S n) + 1 - S n)%nat with 1%nat by lia.
      rewrite !drop_app_le by (rewrite ?length_drop; lia).
      rewrite drop_drop. do 2 f_equal. lia.
Qed.

Lemma last_n_app_assoc {A} (n : nat) (l k : list A) (x : A) :
  last_n n (last_n n (l ++ k) ++ [x]) = last_n n (l ++ k ++ [x]).
Proof. by rewrite last_n_snoc, <-app_assoc. Qed.

(** The rewards of the episodes that the info dicts report, in the order
    of the processes. *)
Definition reported_rewards (infos : list info) : list Q :=
  omap (fun i => if has_key "episode" i
                 then match episode_r i with
                      | Ok r => Some r
                      | Raise _ => None
                      end
                 else None) infos.

(** X1.  The window after the scan (lines 219-226) is the window of before
    followed by the rewards reported by the info dicts, in the order of the
    processes, cut to its [maxlen] last elements. *)
Theorem scan_infos_window (maxlen : nat) (infos : list info) :
  ∀ (k : nat) (bm er bm' er' : list Q),
    (length er ≤ maxlen)%nat →
    scan_infos maxlen k infos bm er = Ok (bm', er') →
    er' = last_n maxlen (er ++ reported_rewards infos) ∧
    (length er' ≤ maxlen)%nat.
Proof.
  assert (∀ (k : nat) (bm er0 er bm' er' : list Q),
            scan_infos maxlen k infos bm (last_n maxlen (er0 ++ er))
            = Ok (bm', er') →
            (er = [] → (length er0 ≤ maxlen)%nat) →
            er' = last_n maxlen (er0 ++ er ++ reported_rewards infos)) as Hgen.
  { induction infos as [|i rest IH]; intros k bm er0 er bm' er' Hscan Her.
    - injection Hscan as <- <-. simpl. by rewrite app_nil_r.
    - cbn [scan_infos] in Hscan.
      destruct (if has_key "bad_transition" i then set_zero k bm else Ok bm)
        as [bm1|]; [|done].
      cbn in Hscan. unfold reported_rewards. simpl.
      destruct (has_key "episode" i).
      + destruct (episode_r i) as [r|]; [|done]. cbn in Hscan.
        rewrite deque_append_last_n, last_n_app_assoc in Hscan.
        rewrite app_assoc in Hscan.
        apply IH in Hscan; [|done].
        rewrite Hscan. f_equal. by rewrite <-!app_assoc.
      + cbn in Hscan. by apply IH in Hscan. }
  intros k bm er bm' er' Hlen Hscan.
  rewrite <-(last_n_all maxlen er Hlen), <-(app_nil_r er) in Hscan at 1.
  apply Hgen in Hscan; [|done]. simpl in Hscan.
  split; [done|]. rewrite Hscan. apply last_n_length.
Qed.

(** ** The configuration and the construction of the model

    Lines 47-95 ([configs]) and 124-153 (the model and the mirror function
    built by [main]).  The entries that the usage line of the module
    overrides ([env_name], [mirror_method]) and the two readings of the
    machine ([torch.cuda.is_available()], [multiprocessing.cpu_count()])
    are arguments of [configs]; every other entry is computed as the
    function computes it.  [MirrorMethods] ([symmetry.consts], not among
    the sources) is a parameter: its members and the four names the driver
    compares with. *)

Module Config.

Record mirror_methods : Type := MirrorMethods {
  members : list string;
  net : string;
  net2 : string;
  traj : string;
  loss : string
}.

Inductive config_exn : Set :=
| AssertionError
| ZeroDivision.

Record ppo_params : Type := PpoParams {
  use_clipped_value_loss : bool;
  pp_num_mini_batch : Z;
  entropy_coef : Q;
  symmetry_coef : Z;
  value_loss_coef : Q;
  ppo_epoch : Z;
  clip_param : Q;
  pp_lr : Q;
  eps : Q;
  max_grad_norm : Q
}.

Record config : Type := Config {
  c_env_name : string;
  c_mirror_method : string;
  c_sym_value_net : bool;
  c_num_frames : Q;
  c_seed : Z;
  c_cuda : bool;
  c_save_every : Q;
  c_log_interval : Z;
  c_load_saved_controller : bool;
  c_episode_steps : Z;
  c_num_processes : Z;
  c_num_steps : Z;
  c_mini_batch_size : Z;
  c_num_mini_batch : Z;
  c_use_gae : bool;
  c_lr_decay_type : string;
  c_robot_power_decay_type : string;
  c_gamma : Q;
  c_gae_lambda : Q;
  c_lr : Q;
  c_aux_loss_coef : Z;
  c_ppo_params : ppo_params
}.

(** [a // b] in [configs]. *)
Definition cfloordiv (a b : Z) : config_exn + Z :=
  if (b =? 0)%Z then inl ZeroDivision else inr (a / b)%Z.

(** Lines 47-95. *)
Definition configs (mm : mirror_methods) (env_name mirror_method : string)
    (cuda : bool) (cpu_count : Z) : config_exn + config :=
  if negb (bool_decide (mirror_method ∈ members mm)) then inl AssertionError
  else
    let sym_value_net :=
      String.eqb mirror_method (net mm) || String.eqb mirror_method (net2 mm) in
    let num_frames := 60000000%Q in
    let seed := 16%Z in
    let save_every := 10000000%Q in
    let log_interval := 1%Z in
    let load_saved_controller := false in
    let episode_steps := 50000%Z in
    let num_processes := cpu_count in
    match cfloordiv episode_steps num_processes with
    | inl e => inl e
    | inr num_steps =>
        let mini_batch_size := 1024%Z in
        match cfloordiv episode_steps mini_batch_size with
        | inl e => inl e
        | inr num_mini_batch =>
            let use_gae := true in
            let lr_decay_type := "exponential" in
            let robot_power_decay_type := "exponential" in
            let gamma := (99 # 100)%Q in
            let gae_lambda := (95 # 100)%Q in
            let lr := (3 # 10000)%Q in
            let aux_loss_coef := 4%Z in
            let ppo_params :=
              PpoParams false num_mini_batch 0
                (if String.eqb mirror_method (loss mm)
                 then aux_loss_coef else 0%Z)
                1 10 (2 # 10) lr (1 # 100000) 2 in
            inr (Config env_name mirror_method sym_value_net num_frames seed
                   cuda save_every log_interval load_saved_controller
                   episode_steps num_processes num_steps mini_batch_size
                   num_mini_batch use_gae lr_decay_type
                   robot_power_decay_type gamma gae_lambda lr aux_loss_coef
                   ppo_params)
        end
    end.

(** The networks that lines 130-145 put together. *)
Inductive controller : Set :=
| SoftsignActor
| SymmetricNet (inner : controller)
| SymmetricNetV2.

Inductive critic : Set :=
| PolicyCritic
| SymmetricVNet (inner : critic).

Record policy : Set := Policy {
  p_controller : controller;
  p_critic : critic
}.

(** What [actor_critic] is after lines 124-145: the file loaded, or the
    policy built. *)
Inductive model : Set :=
| Loaded (model_path : string)
| Built (p : policy).

(** Lines 130-145. *)
Definition build (mm : mirror_methods) (mirror_method : string)
    (sym_value_net : bool) : policy :=
  let controller :=
    if String.eqb mirror_method (net2 mm) then SymmetricNetV2
    else
      let controller := SoftsignActor in
      if String.eqb mirror_method (net mm)
      then SymmetricNet controller else controller in
  let actor_critic := Policy controller PolicyCritic in
  if sym_value_net
  then Policy (p_controller actor_critic)
              (SymmetricVNet (p_critic actor_critic))
  else actor_critic.

(** Lines 124-145; [env_name] is the name after [post_config]. *)
Definition make_actor_critic (mm : mirror_methods) (current_dir : string)
    (env_name : string) (c : config) : model :=
  if c_load_saved_controller c
  then
    let best_model := env_name +:+ "_best.pt" in
    Loaded (os_path_join (os_path_join current_dir "models") best_model)
  else Built (build mm (c_mirror_method c) (c_sym_value_net c)).

(** Lines 147-153: [None], or the mirror function of the indices of the
    environment. *)
Definition make_mirror_function {F : Type} (mm : mirror_methods)
    (get_mirror_function : F) (mirror_method : string) : option F :=
  if String.eqb mirror_method (traj mm) || String.eqb mirror_method (loss mm)
  then Some get_mirror_function
  else None.

(** The actor mirrors by construction. *)
Definition symmetric_controller (k : controller) : bool :=
  match k with
  | SoftsignActor => false
  | SymmetricNet _ | SymmetricNetV2 => true
  end.

Definition symmetric_critic (k : critic) : bool :=
  match k with
  | PolicyCritic => false
  | SymmetricVNet _ => true
  end.

(** A configuration is made exactly for the mirror methods that
    [MirrorMethods] holds and a positive or negative count of processes;
    anything else fails before an entry is set: [AssertionError] for an
    unknown method, whatever the count of processes, [ZeroDivisionError]
    for no process. *)
Lemma configs_fails_or_keeps (mm : mirror_methods)
    (env_name mirror_method : string) (cuda : bool) (cpu_count : Z) :
  match configs mm env_name mirror_method cuda cpu_count with
  | inl AssertionError => mirror_method ∉ members mm
  | inl ZeroDivision => mirror_method ∈ members mm ∧ cpu_count = 0%Z
  | inr c =>
      mirror_method ∈ members mm ∧ cpu_count ≠ 0%Z ∧
      c_env_name c = env_name ∧ c_mirror_method c = mirror_method ∧
      c_num_processes c = cpu_count ∧ c_cuda c = cuda
  end.
Proof.
  unfold configs. case_bool_decide as Hin; simpl; [|done].
  unfold cfloordiv. destruct (Z.eqb_spec cpu_count 0); simpl; done.
Qed.

(** X2.  The steps of an iteration times the processes never go beyond
    [episode_steps], 50000, and fall short of it by less than one step:
    less than the count of processes. *)
Theorem configs_frames_per_iteration (mm : mirror_methods)
    (env_name mirror_method : string) (cuda : bool) (cpu_count : Z)
    (c : config) :
  (0 < cpu_count)%Z →
  configs mm env_name mirror_method cuda cpu_count = inr c →
  (0 ≤ c_num_steps c)%Z ∧
  (c_num_steps c * c_num_processes c ≤ 50000)%Z ∧
  (50000 < (c_num_steps c + 1) * c_num_processes c)%Z.
Proof.
  intros Hcpu. unfold configs. case_bool_decide; simpl; [|done].
  unfold cfloordiv. destruct (Z.eqb_spec cpu_count 0); [lia|]. simpl.
  intros [= <-]. simpl.
  pose proof (Z.mul_div_le 50000 cpu_count Hcpu).
  pose proof (Z.mul_succ_div_gt 50000 cpu_count Hcpu).
  pose proof (Z.div_pos 50000 cpu_count). lia.
Qed.

(** X3.  The count of iterations that line 184 computes from the
    configuration, [int(num_frames) // num_steps // num_processes], is at
    least 1200 on a machine of 1 to 50000 processors; on a machine with
    more, [num_steps] is zero and line 184 raises [ZeroDivisionError]. *)
Theorem configs_num_updates (mm : mirror_methods)
    (env_name mirror_method : string) (cuda : bool) (cpu_count : Z)
    (c : config) :
  (0 < cpu_count)%Z →
  configs mm env_name mirror_method cuda cpu_count = inr c →
  let num_updates :=
    floordiv (int_of_float (c_num_frames c)) (c_num_steps c)
    ≫= (fun n => floordiv n (c_num_processes c)) in
  ((cpu_count ≤ 50000)%Z → ∃ n, num_updates = Ok n ∧ (1200 ≤ n)%Z) ∧
  ((50000 < cpu_count)%Z → num_updates = Raise ZeroDivisionError).
Proof.
  intros Hcpu. unfold configs. case_bool_decide; simpl; [|done].
  unfold cfloordiv. destruct (Z.eqb_spec cpu_count 0); [lia|]. simpl.
  intros [= <-]. cbn [c_num_frames c_num_steps c_num_processes].
  change (int_of_float 60000000) with 60000000%Z. unfold floordiv. split.
  - intros Hle.
    assert (1 ≤ 50000 / cpu_count)%Z as Hs.
    { apply Z.div_le_lower_bound; lia. }
    destruct (Z.eqb_spec (50000 / cpu_count) 0); [lia|].
    unfold mbind, outcome_bind.
    destruct (Z.eqb_spec cpu_count 0); [lia|].
    eexists. split; [done|].
    rewrite Z.div_div by lia.
    pose proof (Z.mul_div_le 50000 cpu_count Hcpu).
    apply Z.div_le_lower_bound; [lia|]. nia.
  - intros Hgt. rewrite (Z.div_small 50000 cpu_count) by lia. done.
Qed.

(** X4.  A PPO agent whose symmetry coefficient is not zero is never left
    without a mirror function: the coefficient of [configs] is not zero
    only for the method [loss], for which [main] builds the function. *)
Theorem symmetry_loss_has_mirror_function {F : Type} (mm : mirror_methods)
    (env_name mirror_method : string) (cuda : bool) (cpu_count : Z)
    (c : config) (f : F) :
  configs mm env_name mirror_method cuda cpu_count = inr c →
  symmetry_coef (c_ppo_params c) ≠ 0%Z →
  symmetry_coef (c_ppo_params c) = 4%Z ∧
  make_mirror_function mm f (c_mirror_method c) = Some f.
Proof.
  unfold configs. case_bool_decide; simpl; [|done].
  destruct (cfloordiv 50000 cpu_count); [done|]. simpl.
  intros [= <-]. simpl. unfold make_mirror_function.
  destruct (String.eqb mirror_method (loss mm)); [|done].
  intros _. by rewrite orb_true_r.
Qed.

(** X5.  With the configuration as [configs] makes it, the model that
    [main] builds has a mirrored critic exactly when its controller is one
    of the two mirrored networks. *)
Theorem critic_mirrors_with_controller (mm : mirror_methods)
    (current_dir env_name mirror_method env_name' : string) (cuda : bool)
    (cpu_count : Z) (c : config) :
  configs mm env_name mirror_method cuda cpu_count = inr c →
  ∃ p,
    make_actor_critic mm current_dir env_name' c = Built p ∧
    symmetric_critic (p_critic p) = symmetric_controller (p_controller p).
Proof.
  unfold configs. case_bool_decide; simpl; [|done].
  destruct (cfloordiv 50000 cpu_count); [done|]. simpl.
  intros [= <-]. unfold make_actor_critic, build. simpl.
  eexists. split; [done|].
  by destruct (String.eqb mirror_method (net2 mm)),
    (String.eqb mirror_method (net mm)).
Qed.

End Config.

(** ** Properties of a run that lean on an invariant of the state *)

Section Keeps.
Context {St Ev : Type}.
Variable Inv : St → Prop.
Variable Φ : list Ev → option exn → Prop.
Hypothesis Φ_nil : ∀ r, Φ [] r.
Hypothesis Φ_app : ∀ t1 t2 r, Φ t1 None → Φ t2 r → Φ (t1 ++ t2) r.

(** From a state that satisfies the invariant, the trace has the
    property, and a computation that ends normally ends in a state that
    satisfies the invariant. *)
Definition keeps {A} (m : M St Ev A) : Prop :=
  ∀ s, Inv s →
    Φ (m s).1 (status (m s).2) ∧
    ∀ x s', (m s).2 = Ok (x, s') → Inv s'.

Lemma keeps_bind {A B} (m : M St Ev A) (f : A → M St Ev B) :
  keeps m → (∀ x, keeps (f x)) → keeps (m ≫= f).
Proof using Φ_app.
  intros Hm Hf s Hs. rewrite bind_run. destruct (Hm s Hs) as [HΦ HI].
  destruct (m s) as [t1 [[x s1]|e]]; simpl in *; [|done].
  destruct (Hf x s1) as [HΦ' HI']; [by eapply HI|].
  split; [by apply Φ_app|done].
Qed.

Lemma keeps_silent {A} (m : M St Ev A) :
  (∀ s, (m s).1 = []) →
  (∀ s x s', Inv s → (m s).2 = Ok (x, s') → Inv s') →
  keeps m.
Proof using Φ_nil.
  intros Hm HI s Hs. rewrite Hm. split; [apply Φ_nil|]. intros x s'.
  by apply HI.
Qed.

Lemma keeps_ret {A} (x : A) : keeps (mret x : M St Ev A).
Proof using Φ_nil.
  apply keeps_silent; [done|]. by intros s y s' Hs [= _ <-].
Qed.

Lemma keeps_gets {A} (f : St → A) : keeps (gets f : M St Ev A).
Proof using Φ_nil.
  apply keeps_silent; [done|]. by intros s y s' Hs [= _ <-].
Qed.

Lemma keeps_modify (f : St → St) :
  (∀ s, Inv s → Inv (f s)) → keeps (modify f : M St Ev unit).
Proof using Φ_nil.
  intros Hf. apply keeps_silent; [done|]. intros s y s' Hs [= _ <-].
  by apply Hf.
Qed.

Lemma keeps_emit (e : Ev) : Φ [e] None → keeps (emit e : M St Ev unit).
Proof. intros He s Hs. split; [done|]. by intros x s' [= _ <-]. Qed.

Lemma keeps_for_from (body : nat → M St Ev unit) lo n :
  (∀ i, keeps (body i)) → keeps (for_from lo n body).
Proof using Φ_nil Φ_app.
  intros Hb. revert lo. induction n as [|n IH]; intros lo; simpl.
  - apply keeps_ret.
  - apply keeps_bind; [apply Hb|]. intros _. apply IH.
Qed.
End Keeps.

Section RunKeeps.
Context {World Obs HState Action LogProb Model Storage : Type}.
Abbreviation collab'' :=
  (@collab World Obs HState Action LogProb Model Storage).
Abbreviation driver'' := (@driver World Obs Model Storage).
Abbreviation event'' := (@event Obs HState Action LogProb).
Variable c : collab''.
Variable a : args.
Implicit Types (s : driver'') (tr : list event'').

(** The two ways an environment step goes. *)
Lemma collect_step_cases step s :
  ∃ action done infos,
    match scan_infos (num_processes a) 0 infos (np_ones (num_processes a))
                     (episode_rewards s) with
    | Ok (bad_masks, window) =>
        ∃ ia w r o,
          collect_step c a step s
          = ([EvAct step; EvEnvStep action done infos; EvInsert ia],
             Ok (tt, set_world w (set_rollouts r (set_current_obs o
                       (set_episode_rewards window s)))))
    | Raise e =>
        collect_step c a step s
        = ([EvAct step; EvEnvStep action done infos], Raise e)
    end.
Proof.
  rewrite collect_step_run.
  destruct (act c _ _ _ _ _) as [w1 [[[value action] lp] states]].
  destruct (envs_step c w1 action) as [w2 [[[obs reward] done] infos]].
  exists action, done, infos.
  destruct (scan_infos _ _ _ _ _) as [[bm win]|e]; [|done].
  by eexists _, w2, _, obs.
Qed.

(** The calls of the writes of a checkpoint phase, whatever becomes of
    them, are writes of its files. *)
Lemma save_all_events m files :
  ∀ s,
    Forall (fun e => ∃ d n ok, e = EvSave d n ok ∧ (d, n) ∈ files)
           (save_all c m files s).1.
Proof.
  induction files as [|[d n] files IH]; intros s; [constructor|].
  simpl. rewrite bind_run, save_run.
  destruct (torch_save c _ _ _) as [w'|]; simpl.
  - constructor.
    + exists d, n, true. split; [done|]. apply list_elem_of_here.
    + eapply Forall_impl; [apply IH|].
      intros e (d' & n' & ok & -> & Hin). exists d', n', ok.
      split; [done|]. by apply list_elem_of_further.
  - constructor; [|constructor].
    exists d, n, false. split; [done|]. apply list_elem_of_here.
Qed.

Lemma checkpoint_state_end num_updates j s x s' :
  (checkpoint c a num_updates j s).2 = Ok (x, s') →
  s' = set_world (world s') (checkpoint_state a num_updates j s).
Proof.
  rewrite checkpoint_run.
  destruct (save_all c _ _ _) as [tr out] eqn:Hrun. simpl. intros ->.
  destruct x. by apply save_all_ok in Hrun as [_ ?].
Qed.

Section Lift.
Variable Inv : driver'' → Prop.
Variable Φ : list event'' → option exn → Prop.
Hypothesis Φ_nil : ∀ r, Φ [] r.
Hypothesis Φ_app : ∀ t1 t2 r, Φ t1 None → Φ t2 r → Φ (t1 ++ t2) r.
Hypothesis Inv_world : ∀ s w, Inv s → Inv (set_world w s).
Hypothesis Inv_rollouts : ∀ s r, Inv s → Inv (set_rollouts r s).
Hypothesis Inv_model : ∀ s m, Inv s → Inv (set_actor_critic m s).
Hypothesis Inv_init :
  ∀ w m r o, Inv (Driver w m r o [] (save_every a) NegInf).
Hypothesis Φ_lr :
  ∀ num_updates j, Φ [EvSetLr (scheduled_lr c a num_updates j)] None.
Hypothesis Φ_update : ∀ e, (2 ≤ phase e ≤ 5)%nat → Φ [e] None.
Hypothesis K_step : ∀ step, keeps Inv Φ (collect_step c a step).
Hypothesis K_checkpoint :
  ∀ num_updates j, keeps Inv Φ (checkpoint c a num_updates j).
Hypothesis K_log :
  ∀ start j losses, keeps Inv Φ (log_epoch c a start j losses).

Lemma keeps_call {A} (f : World → World * A) :
  keeps Inv Φ (call f : M driver'' event'' A).
Proof using Φ_nil Inv_world.
  apply keeps_silent; [done|apply silent_call|].
  intros s x s' Hs. unfold call. run_monad.
  destruct (f (world s)) as [w' y]. simpl. intros [= _ <-].
  by apply Inv_world.
Qed.

Local Ltac keeps_step :=
  match goal with
  | |- keeps _ _ (mbind _ _) => apply (keeps_bind _ _ Φ_app)
  | |- keeps _ _ (mret _) => apply (keeps_ret _ _ Φ_nil)
  | |- keeps _ _ (gets _) => apply (keeps_gets _ _ Φ_nil)
  | |- keeps _ _ (call _) => apply keeps_call
  | |- keeps _ _ (modify _) =>
      apply (keeps_modify _ _ Φ_nil); intros ? ?;
      first [by apply Inv_rollouts | by apply Inv_model]
  | |- keeps _ _ (emit _) => apply keeps_emit, Φ_update; simpl; lia
  | |- keeps _ _ (match ?x with _ => _ end) => destruct x
  | |- ∀ _, _ => intro
  end.

Lemma keeps_collect_and_update : keeps Inv Φ (collect_and_update c a).
Proof using All.
  unfold collect_and_update, for_range.
  apply (keeps_bind _ _ Φ_app);
    [by apply (keeps_for_from _ _ Φ_nil Φ_app)|intros _].
  repeat keeps_step.
Qed.

Lemma keeps_iteration num_updates start j :
  keeps Inv Φ (iteration c a num_updates start j).
Proof using All.
  unfold iteration. apply (keeps_bind _ _ Φ_app).
  { intros s Hs. rewrite push_lr_run. simpl. split; [apply Φ_lr|].
    intros x s' [= _ <-]. by apply Inv_model. }
  intros _. apply (keeps_bind _ _ Φ_app); [apply keeps_collect_and_update|].
  intros losses. apply (keeps_bind _ _ Φ_app); [apply K_checkpoint|].
  intros _. apply K_log.
Qed.

(** The property holds of the whole run, whatever becomes of it. *)
Lemma main_keeps w m r o :
  Φ (main c a w m r o).1 (status (main c a w m r o).2).
Proof using All.
  unfold main. rewrite train_run.
  destruct (_ ≫= _) as [num_updates|e]; [|apply Φ_nil].
  cbn [world]. destruct (time_time c w) as [w' start].
  cbn [actor_critic rollouts current_obs]. unfold for_range.
  apply (keeps_for_from Inv Φ Φ_nil Φ_app);
    [intros j; apply keeps_iteration|apply Inv_init].
Qed.
End Lift.

(** The same for a property of each call by itself. *)
Section EventWise.
Variable Inv : driver'' → Prop.
Variable E : event'' → Prop.
Hypothesis Inv_world : ∀ s w, Inv s → Inv (set_world w s).
Hypothesis Inv_rollouts : ∀ s r, Inv s → Inv (set_rollouts r s).
Hypothesis Inv_model : ∀ s m, Inv s → Inv (set_actor_critic m s).
Hypothesis Inv_obs : ∀ s o, Inv s → Inv (set_current_obs o s).
Hypothesis Inv_scan :
  ∀ s k infos bm bm' win,
    Inv s →
    scan_infos (num_processes a) k infos bm (episode_rewards s)
    = Ok (bm', win) →
    Inv (set_episode_rewards win s).
Hypothesis Inv_checkpoint :
  ∀ num_updates j s, Inv s → Inv (checkpoint_state a num_updates j s).
Hypothesis Inv_init :
  ∀ w m r o, Inv (Driver w m r o [] (save_every a) NegInf).
Hypothesis E_lr : ∀ num_updates j, E (EvSetLr (scheduled_lr c a num_updates j)).
Hypothesis E_collect : ∀ e, is_collect e = true → E e.
Hypothesis E_update : ∀ e, (2 ≤ phase e ≤ 5)%nat → E e.
Hypothesis E_save :
  ∀ num_updates j s d n ok,
    Inv s → (d, n) ∈ checkpoint_files a num_updates j s → E (EvSave d n ok).
Hypothesis E_log :
  ∀ j fps losses s,
    Inv s → (1 < length (episode_rewards s))%nat →
    E (EvLog (record_of a j fps losses (episode_rewards s))).

Lemma main_events w m r o : Forall E (main c a w m r o).1.
Proof using All.
  apply (main_keeps Inv (fun tr _ => Forall E tr)); try done.
  - intros t1 t2 _. apply Forall_app_2.
  - intros nu j. by apply Forall_singleton.
  - intros e He. by apply Forall_singleton, E_update.
  - intros step s Hs.
    destruct (collect_step_cases step s) as (action & done & infos & Hcase).
    destruct (scan_infos _ _ _ _ _) as [[bm win]|e] eqn:Hscan.
    + destruct Hcase as (ia & w' & r' & o' & ->). simpl. split.
      * repeat constructor; by apply E_collect.
      * intros x s' [= _ <-].
        apply Inv_world, Inv_rollouts, Inv_obs. by eapply Inv_scan.
    + rewrite Hcase. simpl. split; [|done].
      repeat constructor; by apply E_collect.
  - intros nu j s Hs. split.
    + rewrite checkpoint_run.
      eapply Forall_impl; [apply save_all_events|].
      intros e (d & n & ok & -> & Hin). by eapply E_save.
    + intros x s' ->%checkpoint_state_end.
      by apply Inv_world, Inv_checkpoint.
  - intros start j losses s Hs. rewrite log_epoch_run.
    destruct (1 <? length (episode_rewards s))%nat eqn:Hlen;
      [|by split; [constructor|intros x s' [= _ <-]]].
    apply Nat.ltb_lt in Hlen.
    destruct (time_time c (world s)) as [w' end_]. cbv beta iota zeta.
    destruct (truediv (inject_Z _) (end_ - start)) as [fps|e]; simpl;
      [|by split].
    split.
    + apply Forall_singleton. by apply (E_log j fps losses s).
    + intros x s' [= _ <-]. by apply Inv_world.
Qed.
End EventWise.
End RunKeeps.

(** ** What a run never does *)

Lemma scan_infos_window_length (maxlen : nat) (infos : list info) :
  ∀ (k : nat) (bm er bm' er' : list Q),
    (length er ≤ maxlen)%nat →
    scan_infos maxlen k infos bm er = Ok (bm', er') →
    (length er' ≤ maxlen)%nat.
Proof.
  induction infos as [|i rest IH]; intros k bm er bm' er' Hlen Hscan.
  - by injection Hscan as <- <-.
  - cbn [scan_infos] in Hscan.
    destruct (if has_key "bad_transition" i then set_zero k bm else Ok bm)
      as [bm1|]; [|done].
    cbn in Hscan. destruct (has_key "episode" i).
    + destruct (episode_r i) as [r|]; [|done]. cbn in Hscan.
      eapply IH; [|done]. rewrite deque_append_last_n. apply last_n_length.
    + cbn in Hscan. by eapply IH.
Qed.

Section Never.
Context {World Obs HState Action LogProb Model Storage : Type}.
Abbreviation collab3 :=
  (@collab World Obs HState Action LogProb Model Storage).
Abbreviation driver3 := (@driver World Obs Model Storage).
Abbreviation event3 := (@event Obs HState Action LogProb).
Variable c : collab3.
Variable a : args.
Implicit Types (s : driver3) (tr : list event3).

Lemma Forall_logged (P : log_record → Prop) tr :
  Forall (fun e => match e with EvLog r => P r | _ => True end) tr →
  Forall P (logged tr).
Proof.
  induction 1 as [|e tr He _ IH]; [constructor|].
  destruct e; simpl; try done. by constructor.
Qed.

Lemma Forall_saved (P : string * string → Prop) tr :
  Forall (fun e => match e with EvSave d n _ => P (d, n) | _ => True end) tr →
  Forall P (saved tr).
Proof.
  induction 1 as [|e tr He _ IH]; [constructor|].
  destruct e; simpl; try done. by constructor.
Qed.

Lemma checkpoint_state_rewards num_updates j s :
  episode_rewards (checkpoint_state a num_updates j s) = episode_rewards s.
Proof.
  unfold checkpoint_state. by destruct (snapshot_due _ _ _ _), (improved _ _).
Qed.

(** X6.  Whatever becomes of a run, every record it has handed to the
    logger has an iteration number of 1 at least, the total step count
    [iter * num_processes * num_steps], and a reward window of more than
    one and at most [num_processes] rewards. *)
Theorem logged_records_well_formed w m r o :
  Forall (fun rec =>
            (1 ≤ log_iter rec)%Z ∧
            log_total_num_steps rec
            = (log_iter rec * Z.of_nat (num_processes a)
               * Z.of_nat (num_steps a))%Z ∧
            (1 < length (log_stats_rew rec) ≤ num_processes a)%nat)
         (logged (main c a w m r o).1).
Proof.
  apply Forall_logged.
  apply (main_events c a
           (fun s => (length (episode_rewards s) ≤ num_processes a)%nat));
    try done.
  - intros s k infos bm bm' win Hs Hscan. simpl.
    by eapply scan_infos_window_length.
  - intros nu j s Hs. by rewrite checkpoint_state_rewards.
  - intros w' m' r' o'. simpl. lia.
  - by intros [].
  - intros [] He; simpl in *; try done; lia.
  - intros j fps losses s Hs Hlen. simpl. lia.
Qed.

(** X7.  With one process, or none, the window never holds two rewards:
    whatever becomes of the run, nothing is logged and the best model is
    never written. *)
Theorem single_process_never_logs w m r o :
  (num_processes a ≤ 1)%nat →
  logged (main c a w m r o).1 = [] ∧
  ∀ d, (d, model_name (env_name a) Best) ∉ saved (main c a w m r o).1.
Proof.
  intros HN.
  assert (Forall (fun e => match e with
                           | EvLog _ => False
                           | EvSave d n _ => n ≠ model_name (env_name a) Best
                           | _ => True
                           end) (main c a w m r o).1) as Hall.
  { apply (main_events c a
             (fun s => (length (episode_rewards s) ≤ num_processes a)%nat));
      try done.
    - intros s k infos bm bm' win Hs Hscan. simpl.
      by eapply scan_infos_window_length.
    - intros nu j s Hs. by rewrite checkpoint_state_rewards.
    - intros w' m' r' o'. simpl. lia.
    - by intros [].
    - intros [] He; simpl in *; try done; lia.
    - intros nu j s d n ok Hs [_ [->|[Himp _]]]%in_checkpoint_files.
      + destruct (snapshot_due _ _ _ _).
        * intros Heq. by eapply model_name_snapshot; [right|].
        * apply model_name_latest_best.
      + apply improved_spec in Himp as [Hlen _]. lia.
    - intros j fps losses s Hs Hlen. lia. }
  split.
  - assert (Forall (fun _ => False) (logged (main c a w m r o).1)) as Hl.
    { apply Forall_logged. eapply Forall_impl; [exact Hall|]. by intros []. }
    by destruct Hl.
  - intros d Hin.
    assert (Forall (fun f => f.2 ≠ model_name (env_name a) Best)
                   (saved (main c a w m r o).1)) as Hs.
    { apply Forall_saved. eapply Forall_impl; [exact Hall|]. by intros []. }
    rewrite Forall_forall in Hs. by apply (Hs _ Hin).
Qed.

(** X9.  With the empty string for [save_dir], whatever becomes of the run,
    no snapshot is ever written: every file written has the name of the
    latest or of the best model. *)
Theorem empty_save_dir_never_snapshots w m r o :
  save_dir a = "" →
  Forall (fun f => f.2 = model_name (env_name a) Latest
                   ∨ f.2 = model_name (env_name a) Best)
         (saved (main c a w m r o).1).
Proof.
  intros Hdir. apply Forall_saved.
  apply (main_events c a (fun _ => True)); try done.
  - by intros [].
  - intros [] He; simpl in *; try done; lia.
  - intros nu j s d n ok _ [_ Hn]%in_checkpoint_files. simpl.
    assert (snapshot_due a nu j (next_checkpoint s) = false) as Hdue.
    { unfold snapshot_due. rewrite Hdir. simpl. apply andb_false_r. }
    rewrite Hdue in Hn. destruct Hn as [->|[_ ->]]; auto.
Qed.

(** X11.  The trace holds the calls of the iterations: pushes of the
    learning rate, steps, inserts, the calls of the update, writes and
    records.  With a frame budget below the frames of one iteration, zero
    or negative, the body of the loop never runs and none of these calls
    is made; from the frames of one iteration on, a first iteration
    starts with the push of a learning rate. *)
Theorem budget_below_one_iteration w m r o :
  (0 < num_steps a)%nat → (0 < num_processes a)%nat →
  let frames := (Z.of_nat (num_steps a) * Z.of_nat (num_processes a))%Z in
  ((int_of_float (num_frames a) < frames)%Z → (main c a w m r o).1 = []) ∧
  ((frames ≤ int_of_float (num_frames a))%Z →
   ∃ x rest, (main c a w m r o).1 = EvSetLr x :: rest).
Proof.
  intros Hs Hp frames. unfold main. rewrite train_run. unfold floordiv.
  destruct (Z.eqb_spec (Z.of_nat (num_steps a)) 0) as [|_]; [lia|].
  unfold mbind, outcome_bind.
  destruct (Z.eqb_spec (Z.of_nat (num_processes a)) 0) as [|_]; [lia|].
  cbn [world]. destruct (time_time c w) as [w' start].
  cbn [actor_critic rollouts current_obs fst].
  rewrite Z.div_div by lia. fold frames. split; intros Hf.
  - assert (int_of_float (num_frames a) / frames < 1)%Z as Hq.
    { apply Z.div_lt_upper_bound; lia. }
    replace (Z.to_nat (int_of_float (num_frames a) / frames)) with 0%nat
      by lia.
    done.
  - assert (1 ≤ int_of_float (num_frames a) / frames)%Z as Hq.
    { apply Z.div_le_lower_bound; lia. }
    destruct (Z.to_nat (int_of_float (num_frames a) / frames)) as [|n] eqn:Hn;
      [lia|].
    unfold for_range. rewrite for_from_S, bind_run. unfold iteration at 1.
    rewrite bind_run, push_lr_run. cbv beta iota.
    destruct ((collect_and_update c a ≫= _) _) as [t1 [[[] s1]|e]];
      cbn [fst snd]; [|by eexists _, _].
    destruct (for_from 1 n _ s1). by eexists _, _.
Qed.
End Never.

(** ** The two copies of a checkpoint file *)

Section DriveFirst.
Context {World Obs HState Action LogProb Model Storage : Type}.
Abbreviation collab4 :=
  (@collab World Obs HState Action LogProb Model Storage).
Abbreviation driver4 := (@driver World Obs Model Storage).
Abbreviation event4 := (@event Obs HState Action LogProb).
Variable c : collab4.
Variable a : args.
Implicit Types (s : driver4) (tr : list event4).

(** Every write into [save_dir] comes right after a write of the same
    file into the drive directory that did not fail. *)
Definition drive_first tr : Prop :=
  (∀ n ok t, tr ≠ EvSave (save_dir a) n ok :: t) ∧
  ∀ t1 n ok t2,
    tr = t1 ++ EvSave (save_dir a) n ok :: t2 →
    ∃ t0, t1 = t0 ++ [EvSave drive_dir n true].

Lemma drive_first_nil : drive_first [].
Proof. split; [done|]. intros t1 n ok t2 H. by destruct t1. Qed.

Lemma drive_first_app t1 t2 :
  drive_first t1 → drive_first t2 → drive_first (t1 ++ t2).
Proof.
  intros [Hh1 H1] [Hh2 H2]. split.
  - intros n ok t Heq. destruct t1 as [|e t1]; simpl in Heq.
    + by eapply Hh2.
    + injection Heq as -> _. by eapply Hh1.
  - intros u1 n ok u2 Heq.
    apply app_eq_inv in Heq as [[k [-> Hk]]|[k [-> Hk]]].
    + destruct k as [|e k]; simpl in Hk.
      * exfalso. by eapply Hh2.
      * injection Hk as <- ->. by eapply H1.
    + apply H2 in Hk as [t0 ->]. exists (t1 ++ t0). by rewrite app_assoc.
Qed.

Lemma drive_first_one e :
  (∀ n ok, e ≠ EvSave (save_dir a) n ok) → drive_first [e].
Proof.
  intros He. split.
  - intros n ok t Heq. injection Heq as -> _. by eapply He.
  - intros t1 n ok t2 Heq. destruct t1 as [|x t1]; simpl in Heq.
    + injection Heq as -> _. by destruct (He n ok).
    + injection Heq as _ Heq. by destruct t1.
Qed.

Lemma drive_first_pair n ok :
  save_dir a ≠ drive_dir →
  drive_first [EvSave drive_dir n true; EvSave (save_dir a) n ok].
Proof.
  intros Hdir. split.
  - intros n' ok' t Heq. injection Heq as Hd _. by destruct Hdir.
  - intros t1 n' ok' t2 Heq.
    destruct t1 as [|x [|y [|z t1]]]; simpl in Heq.
    + injection Heq as Hd _. by destruct Hdir.
    + injection Heq as <- Hn _ _. subst. by exists [].
    + discriminate Heq.
    + discriminate Heq.
Qed.

Lemma drive_first_save_all m n rest s :
  save_dir a ≠ drive_dir →
  (∀ s', drive_first (save_all c m rest s').1) →
  drive_first (save_all c m ((drive_dir, n) :: (save_dir a, n) :: rest) s).1.
Proof.
  intros Hdir Hrest. simpl. rewrite bind_run, save_run.
  destruct (torch_save c (world s) m _) as [w1|]; simpl.
  - rewrite bind_run, save_run. simpl.
    destruct (torch_save c w1 m _) as [w2|]; simpl.
    + apply (drive_first_app [_; _]); [by apply drive_first_pair|].
      apply Hrest.
    + by apply drive_first_pair.
  - apply drive_first_one. intros n' ok' Heq. injection Heq as Hd _.
    by destruct Hdir.
Qed.

(** X12.  The copy on the drive comes first.  Whatever becomes of the run,
    as long as [save_dir] is not the drive directory itself, every write
    of a file into [save_dir] comes right after a write of the same file
    into the drive directory, and that write has not failed. *)
Theorem save_dir_copy_follows_drive_copy w m r o t1 n ok t2 :
  save_dir a ≠ drive_dir →
  (main c a w m r o).1 = t1 ++ EvSave (save_dir a) n ok :: t2 →
  ∃ t0, t1 = t0 ++ [EvSave drive_dir n true].
Proof.
  intros Hdir Heq.
  assert (drive_first (main c a w m r o).1) as [_ Hall]; [|by eapply Hall].
  apply (main_keeps c a (fun _ => True) (fun tr _ => drive_first tr));
    try done.
  - intros _. apply drive_first_nil.
  - intros u1 u2 _. apply drive_first_app.
  - intros nu j. by apply drive_first_one.
  - intros e He. apply drive_first_one. intros n' ok' ->. simpl in He. lia.
  - intros step s _. split; [|done].
    destruct (collect_step_cases c a step s) as (action & done & infos & Hc).
    destruct (scan_infos _ _ _ _ _) as [[bm win]|e].
    + destruct Hc as (ia & w' & r' & o' & ->). simpl.
      apply (drive_first_app [_]); [by apply drive_first_one|].
      apply (drive_first_app [_]); by apply drive_first_one.
    + rewrite Hc. simpl.
      apply (drive_first_app [_]); by apply drive_first_one.
  - intros nu j s _. split; [|done]. rewrite checkpoint_run.
    unfold checkpoint_files.
    generalize (checkpoint_state a nu j s). intros s1. simpl.
    apply drive_first_save_all; [done|]. intros s2.
    destruct (improved _ _).
    + apply drive_first_save_all; [done|]. intros s3. apply drive_first_nil.
    + apply drive_first_nil.
  - intros start j losses s _. split; [|done]. rewrite log_epoch_run.
    destruct (1 <? length (episode_rewards s))%nat; [|apply drive_first_nil].
    destruct (time_time c (world s)) as [w' end_]. cbv beta iota zeta.
    destruct (truediv (inject_Z _) (end_ - start)) as [fps|e]; simpl.
    + by apply drive_first_one.
    + apply drive_first_nil.
Qed.
End DriveFirst.

(** ** The iterations of a run that comes to its end *)

Section Finished.
Context {World Obs HState Action LogProb Model Storage : Type}.
Abbreviation collab5 :=
  (@collab World Obs HState Action LogProb Model Storage).
Abbreviation driver5 := (@driver World Obs Model Storage).
Abbreviation event5 := (@event Obs HState Action LogProb).
Variable c : collab5.
Variable a : args.
Implicit Types (s : driver5) (tr : list event5).

(** A run that comes to its end is the chain of its iterations. *)
Lemma main_ok_chain w m r o tr s' :
  main c a w m r o = (tr, Ok (tt, s')) →
  ∃ num_updates hist,
    floordiv (int_of_float (num_frames a)) (Z.of_nat (num_steps a))
    ≫= (fun n => floordiv n (Z.of_nat (num_processes a))) = Ok num_updates ∧
    length hist = Z.to_nat num_updates ∧
    chain c a num_updates (time_time c w).2 0
          (Driver (time_time c w).1 m r o [] (save_every a) NegInf) hist ∧
    tr = concat hist.*1.
Proof.
  unfold main. rewrite train_run.
  destruct (_ ≫= _) as [num_updates|e]; [|done].
  cbn [world]. destruct (time_time c w) as [w' start].
  cbn [actor_critic rollouts current_obs fst snd]. unfold for_range.
  intros (hist & Hlen & Hc & -> & _)%loop_ok_chain.
  by exists num_updates, hist.
Qed.

(** The iteration at the end of a chain. *)
Lemma chain_last num_updates start hist :
  ∀ j s t s1,
    chain c a num_updates start j s (hist ++ [(t, s1)]) →
    ∃ s0,
      iteration c a num_updates start (j + length hist) s0 = (t, Ok (tt, s1)).
Proof.
  induction hist as [|[t0 s0] hist IH]; intros j s t s1 Hc; simpl in *.
  - rewrite Nat.add_0_r. destruct Hc as [Hrun _]. by exists s.
  - destruct Hc as [_ Hc]. apply IH in Hc as [s2 Hrun].
    exists s2. by rewrite Nat.add_succ_r.
Qed.

(** X13.  A run that comes to its end after one iteration at least, with a
    [save_dir] that is not the empty string, has written a snapshot in its
    last iteration and, in that iteration, no latest model: the model
    trained last is on the disk under the name of a snapshot only. *)
Theorem finished_run_ends_with_snapshot w m r o tr s' :
  save_dir a ≠ "" →
  main c a w m r o = (tr, Ok (tt, s')) →
  learning_rates tr ≠ [] →
  ∃ before last s0 s1 num_updates start j,
    tr = before ++ last ∧
    Z.of_nat j = (num_updates - 1)%Z ∧
    iteration c a num_updates start j s0 = (last, Ok (tt, s1)) ∧
    (save_dir a,
     model_name (env_name a) (Snapshot (int_of_float (next_checkpoint s0))))
      ∈ saved last ∧
    ∀ d, (d, model_name (env_name a) Latest) ∉ saved last.
Proof.
  intros Hdir (nu & hist & _ & Hlen & Hc & ->)%main_ok_chain Hlr.
  destruct hist as [|h hist _] using rev_ind; [done|].
  destruct h as [t s1]. clear Hlr.
  apply chain_last in Hc as Hlast. destruct Hlast as [s0 Hrun].
  rewrite length_app in Hlen. simpl in Hlen, Hrun.
  exists (concat hist.*1), t, s0, s1, nu, (time_time c w).2, (length hist).
  rewrite fmap_app, concat_app. simpl. rewrite app_nil_r.
  split; [done|]. split; [lia|]. split; [done|].
  apply iteration_saved_logged in Hrun
    as (s2 & losses & _ & -> & _ & _ & Hn & _ & _).
  assert (snapshot_due a nu (length hist) (next_checkpoint s2) = true) as Hdue.
  { apply snapshot_due_spec. split; [right; lia|done]. }
  split.
  - apply in_checkpoint_files. rewrite Hdue, Hn. auto.
  - intros d [_ [Hl|[_ Hl]]]%in_checkpoint_files.
    + rewrite Hdue in Hl. by eapply model_name_snapshot; [left|].
    + by eapply model_name_latest_best.
Qed.

Lemma iteration_logged_iter num_updates start j s tr s' :
  iteration c a num_updates start j s = (tr, Ok (tt, s')) →
  Forall (fun rec => log_iter rec = (Z.of_nat j + 1)%Z) (logged tr) ∧
  (length (logged tr) ≤ 1)%nat.
Proof.
  intros (s1 & losses & _ & _ & Hlogs & _)%iteration_saved_logged.
  unfold logs_for in Hlogs.
  destruct (1 <? length (episode_rewards s'))%nat.
  - destruct Hlogs as (w & fps & _ & Hl).
    destruct (logged tr) as [|rec [|rec' l]]; simplify_eq/=.
    split; [by repeat constructor|lia].
  - destruct (logged tr); [|done]. split; [constructor|simpl; lia].
Qed.

Lemma chain_logged_iters num_updates start hist :
  ∀ j s,
    chain c a num_updates start j s hist →
    StronglySorted Z.lt (map log_iter (logged (concat hist.*1))) ∧
    Forall (fun i => Z.of_nat j < i ≤ Z.of_nat (j + length hist))%Z
           (map log_iter (logged (concat hist.*1))).
Proof.
  induction hist as [|[t s1] hist IH]; intros j s Hc; simpl.
  - split; constructor.
  - destruct Hc as [Hrun Hc].
    destruct (IH _ _ Hc) as [Hsorted Hbound].
    apply iteration_logged_iter in Hrun as [Hiter Hlen].
    unfold logged in *. rewrite omap_app, map_app.
    fold (logged t) in *. fold (logged (concat hist.*1)) in *.
    destruct (logged t) as [|rec [|rec' l]]; cbn [map app length] in *; [| |lia].
    + split; [done|]. eapply Forall_impl; [done|]. intros i Hi; cbv beta in *; lia.
    + apply Forall_inv in Hiter. split.
      * constructor; [done|]. eapply Forall_impl; [done|]. intros i Hi; cbv beta in *; lia.
      * constructor; [lia|]. eapply Forall_impl; [done|]. intros i Hi; cbv beta in *; lia.
Qed.

(** X14.  In a run that comes to its end, the iteration numbers of the
    records handed to the logger go strictly up, from 1 at least to the
    count of iterations at most: no iteration is logged twice, some may
    not be logged at all. *)
Theorem logged_iterations_increase w m r o tr s' :
  main c a w m r o = (tr, Ok (tt, s')) →
  StronglySorted Z.lt (map log_iter (logged tr)) ∧
  Forall (fun i => (1 ≤ i ≤ Z.of_nat (length (learning_rates tr)))%Z)
         (map log_iter (logged tr)).
Proof.
  intros Hmain.
  pose proof Hmain as (nu & hist & _ & Hlen & Hc & ->)%main_ok_chain.
  destruct (chain_logged_iters _ _ _ _ _ Hc) as [Hsorted Hbound].
  split; [done|].
  assert (length (learning_rates (concat hist.*1)) = length hist) as ->.
  { clear Hlen Hsorted Hbound Hmain. revert Hc.
    generalize 0%nat (Driver (time_time c w).1 m r o [] (save_every a) NegInf).
    induction hist as [|[t s1] hist IH]; intros j s Hc; [done|].
    destruct Hc as [Hrun Hc]. simpl.
    rewrite learning_rates_app, length_app,
      (iteration_learning_rates _ _ _ _ _ _ _ _ Hrun).
    simpl. f_equal. by eapply IH. }
  eapply Forall_impl; [done|]. simpl. lia.
Qed.
End Finished.

(** ** The bad-mask array and the info dicts past its end *)

Lemma scan_infos_flags (maxlen : nat) (infos : list info) :
  ∀ (k : nat) (bm er : list Q),
    Forall (fun i => has_key "episode" i = true →
                     ∃ r, episode_r i = Ok r) infos →
    match scan_infos maxlen k infos bm er with
    | Ok _ =>
        ∀ p i, infos !! p = Some i → has_key "bad_transition" i = true →
               (k + p < length bm)%nat
    | Raise e =>
        e = IndexError ∧
        ∃ p i, infos !! p = Some i ∧ has_key "bad_transition" i = true ∧
               (length bm ≤ k + p)%nat
    end.
Proof.
  induction infos as [|i infos IH]; intros k bm er Hwf; [done|].
  apply Forall_cons in Hwf as [Hi Hwf]. cbn [scan_infos].
  assert (∃ er1, (if has_key "episode" i
                  then r ← episode_r i; Ok (deque_append maxlen r er)
                  else Ok er) = Ok er1) as (er1 & Her1).
  { destruct (has_key "episode" i); [|by eexists].
    destruct Hi as [r ->]; [done|]. by eexists. }
  destruct (has_key "bad_transition" i) eqn:Hbad.
  - unfold set_zero. destruct (decide (k < length bm)%nat) as [Hk|Hk].
    + cbn. rewrite Her1. cbn.
      specialize (IH (S k) (<[k:=0%Q]> bm) er1 Hwf).
      rewrite length_insert in IH.
      destruct (scan_infos _ _ _ _ _) as [res|e].
      * intros [|p] i' Hp Hflag; simpl in Hp.
        -- lia.
        -- specialize (IH p i' Hp Hflag). lia.
      * destruct IH as (-> & p & i' & Hp & Hflag & Hle).
        split; [done|]. exists (S p), i'. simpl. repeat split; [done..|lia].
    + cbn. split; [done|]. exists 0%nat, i. simpl. repeat split; [done|lia].
  - cbn. rewrite Her1. cbn. specialize (IH (S k) bm er1 Hwf).
    destruct (scan_infos _ _ _ _ _) as [res|e].
    + intros [|p] i' Hp Hflag; simpl in Hp.
      * congruence.
      * specialize (IH p i' Hp Hflag). lia.
    + destruct IH as (-> & p & i' & Hp & Hflag & Hle).
      split; [done|]. exists (S p), i'. simpl. repeat split; [done..|lia].
Qed.

(** X15.  The environments may hand back more info dicts than there are
    processes.  With well-formed episode entries, the scan of lines
    218-226 goes through exactly when no dict at an index of
    [num_processes] or beyond carries ["bad_transition"]; otherwise the
    write into the bad-mask array raises [IndexError]. *)
Theorem scan_infos_index_error (n : nat) (infos : list info) (er : list Q) :
  Forall (fun i => has_key "episode" i = true →
                   ∃ r, episode_r i = Ok r) infos →
  let stray :=
    ∃ p i, infos !! p = Some i ∧ has_key "bad_transition" i = true ∧
           (n ≤ p)%nat in
  (stray → scan_infos n 0 infos (np_ones n) er = Raise IndexError) ∧
  (¬ stray → ∃ res, scan_infos n 0 infos (np_ones n) er = Ok res).
Proof.
  intros Hwf stray.
  pose proof (scan_infos_flags n infos 0 (np_ones n) er Hwf) as H.
  unfold np_ones in H. rewrite length_replicate in H. fold (np_ones n) in H.
  destruct (scan_infos _ _ _ _ _) as [res|e].
  - split; [|by eexists]. intros (p & i & Hp & Hflag & Hle).
    specialize (H p i Hp Hflag). simpl in H. lia.
  - destruct H as [-> Hstray]. split; [done|]. intros Hno. by destruct Hno.
Qed.

(** * Runs on a small scripted world

    Two processes, one environment step per iteration.  The world is a
    tick counter that every call on a collaborator advances; the clock
    reads the tick.  The model is its learning rate.  The storage is the
    one modelled above. *)

Module Demo.
Import RolloutStorage.

Abbreviation store := (RolloutStorage.t nat unit nat unit).
Abbreviation state := (@driver nat nat Q store).
Abbreviation trace := (list (@event nat unit nat unit)).

(** What the environment says of the two processes at each step. *)
Inductive script : Set :=
| Quiet        (* no episode ends *)
| Episodes     (* the first process ends an episode cut by the time limit,
                  the second ends one normally *)
| OneEpisode.  (* the first process ends an episode *)

Definition infos_of (sc : script) (w : nat) : list info :=
  match sc with
  | Quiet => [ ∅; ∅ ]
  | Episodes =>
      [ {[ "episode" := VDict {[ "r" := inject_Z (Z.of_nat w) ]};
           "bad_transition" := VBool true ]};
        {[ "episode" := VDict {[ "r" := inject_Z (2 * Z.of_nat w) ]} ]} ]
  | OneEpisode =>
      [ {[ "episode" := VDict {[ "r" := inject_Z (Z.of_nat w) ]} ]}; ∅ ]
  end.

Definition done_of (sc : script) : list bool :=
  match sc with
  | Quiet => [false; false]
  | _ => [true; false]
  end.

Definition world_of (sc : script) (disk_works : bool)
    : @collab nat nat unit nat unit Q store :=
  {| act w m obs h masks := (S w, ([0%Q; 0%Q], w, tt, tt));
     get_value w m obs h masks := (S w, [0%Q; 0%Q]);
     envs_step w action :=
       (S w, (w, [1%Q; 1%Q], done_of sc, infos_of sc w));
     agent_update w m st := (S w, (m, (1 # 2, 1 # 4, 1 # 8)%Q));
     set_optimizer_lr m x := x;
     linear_decay epoch total initial final :=
       (initial - (initial - final) * inject_Z epoch / inject_Z total)%Q;
     exponential_decay epoch rate initial final :=
       (if Qle_bool final (initial * rate ^ epoch)
        then initial * rate ^ epoch else final)%Q;
     cpu_copy m := m;
     torch_save w m path := if disk_works then Some (S w) else None;
     time_time w := (S w, inject_Z (Z.of_nat w));
     rollouts_observations st i := py_index 0%nat (observations st) i;
     rollouts_states st i := py_index tt (recurrent_states st) i;
     rollouts_masks st i := py_index [] (masks st) i;
     rollouts_insert st ia :=
       insert st (ia_current_obs ia) (ia_states ia) (ia_action ia)
              (ia_action_log_prob ia) (ia_value ia) (ia_reward ia)
              (ia_masks ia) (ia_bad_masks ia);
     rollouts_compute_returns := compute_returns;
     rollouts_after_update := after_update |}.

(** A budget of four frames, two processes and one step per iteration:
    two iterations. *)
Definition config (decay : string) (every : Q) : args :=
  {| env_name := "Walker"; save_dir := "models";
     num_frames := 4; save_every := every; cuda := false;
     num_processes := 2; num_steps := 1; use_gae := false;
     lr_decay_type := decay; gamma := 99 # 100; gae_lambda := 95 # 100;
     lr := 3 # 10000 |}.

(** An empty storage of horizon 1 for two processes. *)
Definition empty_store : store :=
  Make [0%nat; 0%nat] [tt; tt] [0%nat] [tt] [[0%Q; 0%Q]] [[0%Q; 0%Q]]
       [[1%Q; 1%Q]; [1%Q; 1%Q]] [[1%Q; 1%Q]; [1%Q; 1%Q]]
       [[0%Q; 0%Q]; [0%Q; 0%Q]] 0.

Definition run (sc : script) (disk_works : bool) (decay : string)
    (every : Q) : trace * outcome (unit * state) :=
  main (world_of sc disk_works) (config decay every) 0%nat (3 # 10000)%Q
       empty_store 0%nat.

(** The state in which the loop starts: the clock has been read once. *)
Definition s0 (every : Q) : state :=
  Driver 1%nat (3 # 10000)%Q empty_store 0%nat [] every NegInf.

Definition end_state (r : trace * outcome (unit * state)) (d : state)
    : state :=
  match r.2 with
  | Ok (_, s') => s'
  | Raise _ => d
  end.

(** The two iterations of a run, one after the other. *)
Definition first (sc : script) (every : Q) : trace * outcome (unit * state) :=
  iteration (world_of sc true) (config "constant" every) 2 0 0 (s0 every).

Definition second (sc : script) (every : Q)
    : trace * outcome (unit * state) :=
  iteration (world_of sc true) (config "constant" every) 2 0 1
            (end_state (first sc every) (s0 every)).
End Demo.

(** * The theorems at work on the scripted world *)

Import RolloutStorage.
Local Open Scope Q_scope.

(** The first iteration of a run where episodes end: one environment step
    and its insert follow the push of the learning rate, and the record
    of the two rewards of the window is the last call. *)
Lemma iteration_phases_in_order_witness :
  ordered (Demo.first Demo.Episodes 4).1 ∧
  ∃ steps rest w fps losses,
    length steps = 1%nat ∧
    (Demo.first Demo.Episodes 4).1
    = [EvSetLr (3 # 10000)] ++ concat (imap step_events steps) ++ rest
      ++ [EvLog (record_of (Demo.config "constant" 4) 0 fps losses [2; 4])] ∧
    truediv (inject_Z 2) ((time_time (Demo.world_of Demo.Episodes true) w).2
                          - 0) = Ok fps.
Proof.
  destruct (iteration_phases_in_order (Demo.world_of Demo.Episodes true)
              (Demo.config "constant" 4) 2 0 0 (Demo.s0 4)) as [Ho Hex].
  split; [exact Ho|].
  destruct (Hex (Demo.end_state (Demo.first Demo.Episodes 4) (Demo.s0 4)))
    as (steps & nv & losses & w0 & w & w' & s1 & logs
        & Hlen & Htr & _ & _ & _ & _ & _ & _ & Hlogs);
    [vm_compute; reflexivity|].
  assert (episode_rewards
            (Demo.end_state (Demo.first Demo.Episodes 4) (Demo.s0 4))
          = [2; 4]) as Hwin by (vm_compute; reflexivity).
  rewrite Hwin in Hlogs. unfold logs_for in Hlogs.
  cbn [length Nat.ltb Nat.leb] in Hlogs.
  destruct Hlogs as (w1 & fps & Hfps & Hl).
  exists steps.
  eexists ([_; _; _; _]
           ++ map save_event
                (checkpoint_files (Demo.config "constant" 4) 2 0 s1)).
  exists w1, fps, losses.
  split; [exact Hlen|]. split; [|exact Hfps].
  unfold Demo.first. rewrite Htr, Hl. reflexivity.
Defined.

(** The insert of the first iteration stores the masks [0; 1] after an
    environment step that returned the [done] flags [true; false]. *)
Lemma mask_is_zero_iff_done_witness :
  let tr := (Demo.run Demo.Episodes true "constant" 4).1 in
  let ia : @insert_args nat unit nat unit :=
    InsertArgs 2%nat tt 1%nat tt [0; 0] [1; 1] [0; 1] [0; 1] in
  tr = take 3 tr ++ EvInsert ia :: drop 4 tr ∧
  ∃ t0 action done infos,
    take 3 tr = t0 ++ [EvEnvStep action done infos] ∧
    ∀ (p : nat) (done_ : bool),
      done !! p = Some done_ →
      ia_masks ia !! p = Some (if done_ then 0 else 1).
Proof.
  intros tr ia.
  assert (tr = take 3 tr ++ EvInsert ia :: drop 4 tr) as Heq
    by (vm_compute; reflexivity).
  split; [exact Heq|].
  destruct (mask_is_zero_iff_done (Demo.world_of Demo.Episodes true)
              (Demo.config "constant" 4) 0%nat (3 # 10000) Demo.empty_store
              0%nat (take 3 tr) ia (drop 4 tr) Heq)
    as (t0 & action & done & infos & Ht0 & _ & Hm & _).
  exists t0, action, done, infos. split; [exact Ht0|exact Hm].
Defined.

(** The same insert stores the bad masks [0; 1]: the info dict of the
    first process has the key [bad_transition], the one of the second has
    not. *)
Lemma bad_mask_is_zero_iff_bad_transition_witness :
  let tr := (Demo.run Demo.Episodes true "constant" 4).1 in
  let ia : @insert_args nat unit nat unit :=
    InsertArgs 2%nat tt 1%nat tt [0; 0] [1; 1] [0; 1] [0; 1] in
  tr = take 3 tr ++ EvInsert ia :: drop 4 tr ∧
  ∃ t0 action done infos,
    take 3 tr = t0 ++ [EvEnvStep action done infos] ∧
    ∀ (p : nat) (i : info),
      (p < 2)%nat → infos !! p = Some i →
      (ia_bad_masks ia !! p = Some 0 ↔ "bad_transition" ∈ dom i).
Proof.
  intros tr ia.
  assert (tr = take 3 tr ++ EvInsert ia :: drop 4 tr) as Heq
    by (vm_compute; reflexivity).
  split; [exact Heq|].
  destruct (bad_mask_is_zero_iff_bad_transition
              (Demo.world_of Demo.Episodes true)
              (Demo.config "constant" 4) 0%nat (3 # 10000) Demo.empty_store
              0%nat (take 3 tr) ia (drop 4 tr) Heq)
    as (t0 & action & done & infos & Ht0 & _ & Hb).
  exists t0, action, done, infos. split; [exact Ht0|].
  intros p i Hp Hi. exact (proj1 (Hb p i Hp Hi)).
Defined.

(** A budget of four frames, one step and two processes: two
    iterations. *)
Lemma run_makes_num_updates_iterations_witness :
  ∃ tr s',
    Demo.run Demo.Episodes true "constant" 4 = (tr, Ok (tt, s')) ∧
    Z.of_nat (length (learning_rates tr)) = 2%Z.
Proof.
  destruct (run_makes_num_updates_iterations
              (Demo.world_of Demo.Episodes true) (Demo.config "constant" 4)
              0%nat (3 # 10000) Demo.empty_store 0%nat)
    as (tr & s' & s0 & hist & Hrun & _ & _ & _ & Hn).
  - vm_compute. discriminate.
  - simpl. lia.
  - simpl. lia.
  - intros w1 action. simpl. split; [lia|].
    repeat constructor; intros _; eexists; reflexivity.
  - intros w1 m1 p. exists (S w1). split; [reflexivity|].
    simpl. unfold Qeq. simpl. lia.
  - exists tr, s'. split; [exact Hrun|exact Hn].
Defined.

(** The first iteration writes the latest and the best model. *)
Lemma checkpoint_files_written_witness :
  ("models", "Walker_latest.pt") ∈ saved (Demo.first Demo.Episodes 4).1 ∧
  ("models", "Walker_best.pt") ∈ saved (Demo.first Demo.Episodes 4).1.
Proof.
  destruct (checkpoint_files_written (Demo.world_of Demo.Episodes true)
              (Demo.config "constant" 4) 2 0 0 (Demo.s0 4)
              (Demo.first Demo.Episodes 4).1
              (Demo.end_state (Demo.first Demo.Episodes 4) (Demo.s0 4)))
    as (Hl & _ & _ & Hb); [vm_compute; reflexivity|].
  split.
  - apply Hl. intros [[H|H] _]; vm_compute in H; [by destruct H|discriminate].
  - apply Hb. split; [vm_compute; lia|exact I].
Defined.

(** With a disk that fails, the run ends at the first write. *)
Lemma failed_write_ends_run_witness :
  (Demo.run Demo.Episodes false "constant" 4).2 = Raise OSError.
Proof.
  refine (proj2 (failed_write_ends_run (Demo.world_of Demo.Episodes false)
                   (Demo.config "constant" 4) 0%nat (3 # 10000)
                   Demo.empty_store 0%nat
                   (take 8 (Demo.run Demo.Episodes false "constant" 4).1)
                   drive_dir "Walker_latest.pt" [] _)).
  vm_compute. reflexivity.
Defined.

(** The first iteration of a run where two episodes end logs one
    record. *)
Lemma one_record_when_window_has_two_witness :
  length (logged (Demo.first Demo.Episodes 4).1) = 1%nat.
Proof.
  destruct (one_record_when_window_has_two (Demo.world_of Demo.Episodes true)
              (Demo.config "constant" 4) 2 0 0 (Demo.s0 4)
              (Demo.first Demo.Episodes 4).1
              (Demo.end_state (Demo.first Demo.Episodes 4) (Demo.s0 4)))
    as [_ H]; [vm_compute; reflexivity|].
  destruct H as (vl & al & ent & w & fps & _ & _ & Hlog);
    [vm_compute; lia|].
  rewrite Hlog. reflexivity.
Defined.

(** A storage of horizon 2 for two processes, with masks all one. *)
Definition two_steps : RolloutStorage.t nat unit nat unit :=
  Make [0%nat; 0%nat; 0%nat] [tt; tt; tt] [0%nat; 0%nat] [tt; tt]
       [[0; 0]; [0; 0]] [[1; 2]; [3; 4]]
       [[1; 1]; [1; 1]; [1; 1]] [[1; 1]; [1; 1]; [1; 1]]
       [[0; 0]; [0; 0]; [0; 0]] 0.

Example two_steps_returns :
  returns (compute_returns two_steps [10; 20] false (1 # 2) (95 # 100))
  = [[20 # 4; 36 # 4]; [16 # 2; 28 # 2]; [10; 20]].
Proof. vm_compute. reflexivity. Qed.

(** For the second process, at step 0: [2 + 4/2 + 20/4]. *)
Lemma compute_returns_is_discounted_return_witness :
  ∃ row x,
    returns (compute_returns two_steps [10; 20] false (1 # 2) (95 # 100)) !! 0%nat
    = Some row ∧
    row !! 1%nat = Some x ∧ x == 9.
Proof.
  destruct (compute_returns_is_discounted_return two_steps [10; 20] (1 # 2)
              (95 # 100) 2 0 1) as (row & x & Hrow & Hx & Heq).
  - reflexivity.
  - reflexivity.
  - repeat constructor.
  - repeat constructor; reflexivity.
  - reflexivity.
  - vm_compute. lia.
  - lia.
  - exists row, x. split; [exact Hrow|]. split; [exact Hx|].
    rewrite Heq. vm_compute. reflexivity.
Defined.

(** Both iterations of a run where episodes end write the best model:
    with the mean 3, then with the mean 33/2. *)
Lemma best_mean_strictly_increases_witness :
  (np_mean [2; 4] < np_mean [11; 22])%Q.
Proof.
  pose (s1 := Demo.end_state (Demo.first Demo.Episodes 4) (Demo.s0 4)).
  pose (s2 := Demo.end_state (Demo.second Demo.Episodes 4) s1).
  pose (hist := [((Demo.first Demo.Episodes 4).1, s1);
                 ((Demo.second Demo.Episodes 4).1, s2)]).
  destruct (best_mean_strictly_increases (Demo.world_of Demo.Episodes true)
              (Demo.config "constant" 4) 2 0 0 (Demo.s0 4) hist)
    as [_ Hchain].
  destruct (Hchain) with (i := 0%nat) (k := 1%nat)
    (ti := (Demo.first Demo.Episodes 4).1) (si := s1)
    (tk := (Demo.second Demo.Episodes 4).1) (sk := s2)
    as (_ & _ & _ & _ & Hlt).
  - split; [vm_compute; reflexivity|]. split; [vm_compute; reflexivity|exact I].
  - lia.
  - reflexivity.
  - reflexivity.
  - vm_compute. do 3 apply list_elem_of_further. apply list_elem_of_here.
  - vm_compute. do 3 apply list_elem_of_further. apply list_elem_of_here.
  - exact Hlt.
Defined.

(** * Where the specification and the code part *)

(** Against C5.  The second iteration of a run where episodes end comes
    to its end and writes the snapshot of four frames and the best model,
    not the latest model.  The last iteration of a quiet run writes the
    snapshot tagged 100 although the frame count, 4, is below 100.  With
    a single reward in the window, above any mean seen before, the best
    model is not written. *)
Lemma latest_not_written_with_snapshot :
  Demo.second Demo.Episodes 4
  = ((Demo.second Demo.Episodes 4).1,
     Ok (tt, Demo.end_state (Demo.second Demo.Episodes 4) (Demo.s0 4))) ∧
  saved (Demo.second Demo.Episodes 4).1
  = [(drive_dir, "Walker_4.pt"); ("models", "Walker_4.pt");
     (drive_dir, "Walker_best.pt"); ("models", "Walker_best.pt")] ∧
  (("models", "Walker_latest.pt") ∉ saved (Demo.second Demo.Episodes 4).1) ∧
  (frame_count (Demo.config "constant" 100) 1 < 100)%Z ∧
  saved (Demo.second Demo.Quiet 100).1
  = [(drive_dir, "Walker_100.pt"); ("models", "Walker_100.pt")] ∧
  episode_rewards (Demo.end_state (Demo.first Demo.OneEpisode 4) (Demo.s0 4))
  = [2] ∧
  max_ep_reward (Demo.s0 4) = NegInf ∧
  saved (Demo.first Demo.OneEpisode 4).1
  = [(drive_dir, "Walker_latest.pt"); ("models", "Walker_latest.pt")].
Proof.
  assert (saved (Demo.second Demo.Episodes 4).1
          = [(drive_dir, "Walker_4.pt"); ("models", "Walker_4.pt");
             (drive_dir, "Walker_best.pt"); ("models", "Walker_best.pt")])
    as Hsaved by (vm_compute; reflexivity).
  split; [vm_compute; reflexivity|]. split; [exact Hsaved|].
  split.
  { rewrite Hsaved. intros H.
    repeat (apply elem_of_cons in H as [H|H]; [discriminate H|]).
    by apply elem_of_nil in H. }
  split; [vm_compute; reflexivity|].
  repeat split; vm_compute; reflexivity.
Qed.

(** C6.  The code at the failing input.  With a disk that fails, the run
    of two iterations ends with the exception of the first write of its
    first iteration, the copy into the drive directory: that failed write
    is its last call, nothing is logged, and the second iteration, which
    the same run makes when the disk works, never starts.  The claim has
    the failure caught and logged and the loop going on. *)
Lemma failed_write_stops_training :
  (Demo.run Demo.Episodes false "constant" 4).2 = Raise OSError ∧
  last (Demo.run Demo.Episodes false "constant" 4).1
  = Some (EvSave drive_dir "Walker_latest.pt" false) ∧
  logged (Demo.run Demo.Episodes false "constant" 4).1 = [] ∧
  length (learning_rates (Demo.run Demo.Episodes false "constant" 4).1)
  = 1%nat ∧
  length (learning_rates (Demo.run Demo.Episodes true "constant" 4).1)
  = 2%nat.
Proof. repeat split; vm_compute; reflexivity. Qed.

(** Against C7.  The first iteration of a quiet run comes to its end and
    hands the logger no record. *)
Lemma quiet_iteration_logs_nothing :
  Demo.first Demo.Quiet 4
  = ((Demo.first Demo.Quiet 4).1,
     Ok (tt, Demo.end_state (Demo.first Demo.Quiet 4) (Demo.s0 4))) ∧
  logged (Demo.first Demo.Quiet 4).1 = [].
Proof. split; vm_compute; reflexivity. Qed.

(** * Further runs and inputs *)

Module Cases.

(** The mirror methods as the usage note of the source lists them. *)
Definition methods : Config.mirror_methods :=
  Config.MirrorMethods ["none"; "net"; "net2"; "traj"; "loss"; "phase"]
    "net" "net2" "traj" "loss".

(** The configuration of [Demo.config] with other counts, directory and
    budget. *)
Definition with_counts (processes steps : nat) (dir : string) (frames : Q)
    : args :=
  {| env_name := "Walker"; save_dir := dir;
     num_frames := frames; save_every := 4; cuda := false;
     num_processes := processes; num_steps := steps; use_gae := false;
     lr_decay_type := "constant"; gamma := 99 # 100; gae_lambda := 95 # 100;
     lr := 3 # 10000 |}.

Definition run_with (sc : Demo.script) (a : args)
    : Demo.trace * outcome (unit * Demo.state) :=
  main (Demo.world_of sc true) a 0%nat (3 # 10000)%Q Demo.empty_store 0%nat.

(** Two info dicts for one process: the second is flagged. *)
Definition one_too_many : list info :=
  [ ∅; {[ "bad_transition" := VBool true ]} ].
End Cases.

(** A window of two that holds 5 takes the rewards 3 and 6 of a step and
    lets go of the 5. *)
Lemma scan_infos_window_witness :
  ∃ bm' er',
    scan_infos 2 0 (Demo.infos_of Demo.Episodes 3) (np_ones 2) [5]
    = Ok (bm', er') ∧
    er' = last_n 2 ([5] ++ reported_rewards (Demo.infos_of Demo.Episodes 3)) ∧
    (length er' ≤ 2)%nat.
Proof.
  exists [0; 1], [3; 6].
  assert (scan_infos 2 0 (Demo.infos_of Demo.Episodes 3) (np_ones 2) [5]
          = Ok ([0; 1], [3; 6])) as Hscan by (vm_compute; reflexivity).
  split; [exact Hscan|].
  apply (scan_infos_window 2 (Demo.infos_of Demo.Episodes 3) 0%nat
           (np_ones 2) [5] [0; 1] [3; 6]); [simpl; lia|exact Hscan].
Defined.

(** Eight processors: 6250 steps each, 50000 frames an iteration. *)
Lemma configs_frames_per_iteration_witness :
  ∃ c,
    Config.configs Cases.methods "Walker" "none" false 8 = inr c ∧
    (0 ≤ Config.c_num_steps c)%Z ∧
    (Config.c_num_steps c * Config.c_num_processes c ≤ 50000)%Z ∧
    (50000 < (Config.c_num_steps c + 1) * Config.c_num_processes c)%Z.
Proof.
  eexists. split; [vm_compute; reflexivity|].
  apply (Config.configs_frames_per_iteration Cases.methods "Walker" "none"
           false 8); [lia|vm_compute; reflexivity].
Defined.

(** Eight processors: 1200 iterations. *)
Lemma configs_num_updates_witness :
  ∃ c,
    Config.configs Cases.methods "Walker" "none" false 8 = inr c ∧
    ∃ n, floordiv (int_of_float (Config.c_num_frames c))
                  (Config.c_num_steps c)
         ≫= (fun n => floordiv n (Config.c_num_processes c)) = Ok n ∧
         (1200 ≤ n)%Z.
Proof.
  eexists. split; [vm_compute; reflexivity|].
  apply (Config.configs_num_updates Cases.methods "Walker" "none" false 8);
    [lia|vm_compute; reflexivity|lia].
Defined.

(** The method [loss]: coefficient 4 and a mirror function. *)
Lemma symmetry_loss_has_mirror_function_witness :
  ∃ c,
    Config.configs Cases.methods "Walker" "loss" false 8 = inr c ∧
    Config.symmetry_coef (Config.c_ppo_params c) = 4%Z ∧
    Config.make_mirror_function Cases.methods tt (Config.c_mirror_method c)
    = Some tt.
Proof.
  eexists. split; [vm_compute; reflexivity|].
  apply (Config.symmetry_loss_has_mirror_function Cases.methods "Walker"
           "loss" false 8); [vm_compute; reflexivity|simpl; lia].
Defined.

(** The method [net]: a mirrored controller and a mirrored critic. *)
Lemma critic_mirrors_with_controller_witness :
  ∃ c p,
    Config.configs Cases.methods "Walker" "net" false 8 = inr c ∧
    Config.make_actor_critic Cases.methods "src/playground" "Walker" c
    = Config.Built p ∧
    Config.symmetric_critic (Config.p_critic p)
    = Config.symmetric_controller (Config.p_controller p).
Proof.
  eexists.
  destruct (Config.critic_mirrors_with_controller Cases.methods
              "src/playground" "Walker" "net" "Walker" false 8 _
              ltac:(vm_compute; reflexivity)) as (p & Hp & Hsym).
  exists p. split; [reflexivity|]. split; [exact Hp|exact Hsym].
Defined.

(** One process, episodes ending at every step: nothing is logged and
    no best model is written. *)
Lemma single_process_never_logs_witness :
  let tr :=
    (Cases.run_with Demo.Episodes (Cases.with_counts 1 1 "models" 4)).1 in
  logged tr = [] ∧ ∀ d, (d, model_name "Walker" Best) ∉ saved tr.
Proof.
  intros tr. unfold tr, Cases.run_with.
  apply (single_process_never_logs (Demo.world_of Demo.Episodes true)
           (Cases.with_counts 1 1 "models" 4) 0%nat (3 # 10000)
           Demo.empty_store 0%nat).
  simpl. lia.
Defined.

(** No [save_dir]: the last iteration too writes the latest model. *)
Lemma empty_save_dir_never_snapshots_witness :
  Forall (fun f => f.2 = model_name "Walker" Latest
                   ∨ f.2 = model_name "Walker" Best)
         (saved (Cases.run_with Demo.Episodes
                   (Cases.with_counts 2 1 "" 4)).1).
Proof.
  apply (empty_save_dir_never_snapshots (Demo.world_of Demo.Episodes true)
           (Cases.with_counts 2 1 "" 4)).
  reflexivity.
Defined.

(** Two frames an iteration: a budget of one frame buys nothing, a budget
    of four starts an iteration. *)
Lemma budget_below_one_iteration_witness :
  (Cases.run_with Demo.Episodes (Cases.with_counts 2 1 "models" 1)).1 = [] ∧
  ∃ x rest,
    (Cases.run_with Demo.Episodes (Cases.with_counts 2 1 "models" 4)).1
    = EvSetLr x :: rest.
Proof.
  split.
  - apply (budget_below_one_iteration (Demo.world_of Demo.Episodes true)
             (Cases.with_counts 2 1 "models" 1) 0%nat (3 # 10000)
             Demo.empty_store 0%nat);
      [simpl; lia|simpl; lia|vm_compute; reflexivity].
  - apply (budget_below_one_iteration (Demo.world_of Demo.Episodes true)
             (Cases.with_counts 2 1 "models" 4) 0%nat (3 # 10000)
             Demo.empty_store 0%nat);
      [simpl; lia|simpl; lia|vm_compute; discriminate].
Defined.

(** The first write into ["models"], the tenth call of the run, follows
    the write of the same file on the drive. *)
Lemma save_dir_copy_follows_drive_copy_witness :
  let tr := (Demo.run Demo.Episodes true "constant" 4).1 in
  let n := model_name "Walker" Latest in
  tr = take 9 tr ++ EvSave "models" n true :: drop 10 tr ∧
  ∃ t0, take 9 tr = t0 ++ [EvSave drive_dir n true].
Proof.
  intros tr n.
  assert (tr = take 9 tr ++ EvSave "models" n true :: drop 10 tr) as Heq
    by (vm_compute; reflexivity).
  split; [exact Heq|].
  apply (save_dir_copy_follows_drive_copy (Demo.world_of Demo.Episodes true)
           (Demo.config "constant" 4) 0%nat (3 # 10000) Demo.empty_store
           0%nat (take 9 tr) n true (drop 10 tr));
    [simpl; discriminate|exact Heq].
Defined.

(** The run of two iterations ends with the snapshot of its second
    iteration. *)
Lemma finished_run_ends_with_snapshot_witness :
  let run := Demo.run Demo.Episodes true "constant" 4 in
  ∃ before last s0 s1 num_updates start j,
    run.1 = before ++ last ∧
    Z.of_nat j = (num_updates - 1)%Z ∧
    iteration (Demo.world_of Demo.Episodes true) (Demo.config "constant" 4)
              num_updates start j s0 = (last, Ok (tt, s1)) ∧
    ("models",
     model_name "Walker" (Snapshot (int_of_float (next_checkpoint s0))))
      ∈ saved last ∧
    ∀ d, (d, model_name "Walker" Latest) ∉ saved last.
Proof.
  intros run.
  apply (finished_run_ends_with_snapshot (Demo.world_of Demo.Episodes true)
           (Demo.config "constant" 4) 0%nat (3 # 10000) Demo.empty_store
           0%nat run.1 (Demo.end_state run (Demo.s0 4))).
  - simpl. discriminate.
  - vm_compute. reflexivity.
  - vm_compute. discriminate.
Defined.

(** The two iterations of a run where episodes end log the iterations 1
    and 2. *)
Lemma logged_iterations_increase_witness :
  let run := Demo.run Demo.Episodes true "constant" 4 in
  StronglySorted Z.lt (map log_iter (logged run.1)) ∧
  Forall (fun i => (1 ≤ i ≤ Z.of_nat (length (learning_rates run.1)))%Z)
         (map log_iter (logged run.1)).
Proof.
  intros run.
  apply (logged_iterations_increase (Demo.world_of Demo.Episodes true)
           (Demo.config "constant" 4) 0%nat (3 # 10000) Demo.empty_store
           0%nat run.1 (Demo.end_state run (Demo.s0 4))).
  vm_compute. reflexivity.
Defined.

(** One process and a flag in a second info dict: [IndexError]. *)
Lemma scan_infos_index_error_witness :
  scan_infos 1 0 Cases.one_too_many (np_ones 1) [] = Raise IndexError.
Proof.
  assert (Forall (fun i => has_key "episode" i = true →
                           ∃ r, episode_r i = Ok r) Cases.one_too_many)
    as Hwf.
  { repeat constructor; vm_compute; discriminate. }
  apply (scan_infos_index_error 1 Cases.one_too_many [] Hwf).
  exists 1%nat, {[ "bad_transition" := VBool true ]}.
  split; [reflexivity|]. split; [vm_compute; reflexivity|lia].
Defined.
